(** * The Consul service resolver of faas-nomad (package [resolver])

    A shallow embedding of [ConsulServiceResolver]: the resolution cache,
    the one-shot fetch, the watch loop, the periodic reset and the
    load-balancing selector, with the properties of its specification. *)

From Stdlib Require Import Ascii.
From stdpp Require Import base gmap sets list strings pretty.

Local Open Scope string_scope.
Local Open Scope Z_scope.

(** ** Go strings

    A Go string is a sequence of bytes, as is a Rocq [string]. *)
Module strings.

(** [strings.HasPrefix(s, prefix)]:
    [len(s) >= len(prefix) && s[0:len(prefix)] == prefix]. *)
Definition HasPrefix (s prefix : string) : bool :=
  (String.length prefix <=? String.length s)%nat
  && String.eqb (String.substring 0 (String.length prefix) s) prefix.

(** [strings.HasSuffix(s, suffix)]:
    [len(s) >= len(suffix) && s[len(s)-len(suffix):] == suffix]. *)
Definition HasSuffix (s suffix : string) : bool :=
  (String.length suffix <=? String.length s)%nat
  && String.eqb
       (String.substring (String.length s - String.length suffix)
                  (String.length suffix) s)
       suffix.

(** [strings.TrimSuffix(s, suffix)]: [s] without the trailing [suffix],
    or [s] itself when it does not end with [suffix]. *)
Definition TrimSuffix (s suffix : string) : string :=
  if HasSuffix s suffix
  then String.substring 0 (String.length s - String.length suffix) s
  else s.

End strings.

(** ** Errors and panics *)

(** A function of Go type [(T, error)], with [E] the errors it can make. *)
Inductive result (E A : Type) : Type :=
  | Ok (a : A)
  | Err (e : E).
Arguments Ok {E A} a.
Arguments Err {E A} e.

(** How a call ends: it returns, or the goroutine panics. *)
Inductive outcome (A : Type) : Type :=
  | Done (a : A)
  | Panic (msg : string).
Arguments Done {A} a.
Arguments Panic {A} msg.

(** ** The consul-template and Consul types the resolver uses *)

(** [api.HealthCheck], of which the resolver only counts the entries. *)
Record HealthCheck : Type := {
  CheckID : string;
  Status : string
}.

(** [dependency.HealthService], the fields the resolver reads. *)
Record HealthService : Type := {
  Address : string;
  Port : Z;
  Checks : list HealthCheck
}.

(** [connect.SpiffeIDService], the [connect.CertURI] the resolver returns. *)
Record SpiffeIDService : Type := {
  Host : string;
  Namespace : string;
  Datacenter : string;
  Service : string
}.

(** A Go slice, which may be [nil]. *)
Inductive slice (A : Type) : Type :=
  | nil_slice
  | Slice (elems : list A).
Arguments nil_slice {A}.
Arguments Slice {A} elems.

Definition len {A : Type} (s : slice A) : nat :=
  match s with
  | nil_slice => 0%nat
  | Slice l => length l
  end.

Definition index {A : Type} (s : slice A) (i : nat) : option A :=
  match s with
  | nil_slice => None
  | Slice l => l !! i
  end.

(** A value of type [interface{}] as [Fetch] and [View.Data] hand it out:
    a list of health services, or something else. *)
Inductive any : Type :=
  | HealthServices (services : list HealthService)
  | NilValue
  | OtherValue (type_name : string).

(** ** Package [dependency] of consul-template

    The package is not part of this repository. Its query type, the query
    constructors, [String], [Fetch] and the construction of the Consul
    client are taken as an interface; the resolver is verified against
    every implementation of it. *)
Module dependency.

(** An [error] value made by the package or by the Consul client under
    it: a failed query construction, client construction or fetch. *)
Record Error : Type := { Message : string }.

(** [dependency.CreateConsulClientInput], the fields the resolver sets. *)
Record CreateConsulClientInput : Type := {
  InputAddress : string;
  Token : string;
  SSLEnabled : bool;
  SSLCACert : string;
  SSLCert : string;
  SSLKey : string;
  SSLVerify : bool
}.

Class Interface : Type := {
  (** [dependency.Dependency], here always a [*HealthServiceQuery]. *)
  Dependency : Type;
  NewHealthServiceQuery : string -> result Error Dependency;
  NewHealthConnectQuery : string -> result Error Dependency;
  (** [d.String()], the key of the cache and of the watcher. *)
  String : Dependency -> string;
  (** [*dependency.ClientSet], the handle on the catalog. *)
  ClientSet : Type;
  (** [clientSet.CreateConsulClient(input)] on a new client set. *)
  CreateConsulClient : CreateConsulClientInput -> result Error ClientSet;
  (** [d.Fetch(clients, nil)], the one-shot blocking query. *)
  Fetch : Dependency -> ClientSet -> result Error any
}.

End dependency.

(** A Go [error] value the resolver returns, told apart by where it was
    made: by [fmt.Errorf] in this package, or by the [dependency] package
    and handed on as it is. *)
Inductive error : Type :=
  | Errorf (msg : string)
  | DependencyError (err : dependency.Error).

(** ** Package [time] *)
Module time.
(** A [time.Duration] counts nanoseconds. *)
Definition Duration : Type := Z.
Definition Nanosecond : Duration := 1.
Definition Millisecond : Duration := 1000000 * Nanosecond.
Definition Second : Duration := 1000 * Millisecond.
Definition Minute : Duration := 60 * Second.
End time.

(** ** Package [math/rand] *)
Module rand.

(** The process-wide random source: the raw values it will hand out, and
    how many of them have been drawn. *)
Record Source : Type := {
  stream : nat -> nat;
  drawn : nat
}.

(** [rand.Intn(n)]: a number in [[0, n)]; it panics when [n <= 0]. *)
Definition Intn (n : nat) (src : Source) : outcome (nat * Source) :=
  match n with
  | O => Panic "invalid argument to Intn"
  | S _ =>
      Done ((stream src (drawn src) mod n)%nat,
            {| stream := stream src; drawn := S (drawn src) |})
  end.

End rand.

(** [fmt.Sprintf("%v:%v", s.Address, s.Port)]: the address, a colon and the
    port in decimal. *)
Definition format_address (s : HealthService) : string :=
  Address s +:+ ":" +:+ pretty (Port s).

(** ** Package [types]: the provider configuration the resolver reads *)
Module types.

Record ConsulConfig : Type := {
  Addr : string;
  ACLToken : string;
  CACert : string;
  ClientCert : string;
  ClientKey : string;
  TLSSkipVerify : bool;
  ConnectAware : bool
}.

Record SchedulingConfig : Type := {
  JobPrefix : string;
  Namespace : string
}.

Record ProviderConfig : Type := {
  Consul : ConsulConfig;
  Scheduling : SchedulingConfig
}.

End types.

Section Resolver.

Context `{deps : dependency.Interface}.

(** ** Package [watch] of consul-template *)

(** Modelled from the spec: the watcher of consul-template is not part of
    this repository. Following sections 3 and 6 of the specification it
    is the set of queries registered for continuous updates, keyed by
    their string; [Add] registers a query, [Stop] tears down every
    subscription. The values it pushes on its data channel are inputs of
    the watch loop below. *)
Record Watcher : Type := {
  Clients : dependency.ClientSet;
  MaxStale : time.Duration;
  depViewMap : gset string
}.

Definition NewWatcher (clients : dependency.ClientSet)
    (maxStale : time.Duration) : Watcher :=
  {| Clients := clients; MaxStale := maxStale; depViewMap := ∅ |}.

(** [w.Add(d)]: [true] when [d] was not yet watched. *)
Definition Watcher_Add (d : dependency.Dependency) (w : Watcher)
    : bool * Watcher :=
  if decide (dependency.String d ∈ depViewMap w)
  then (false, w)
  else (true, {| Clients := Clients w; MaxStale := MaxStale w;
                 depViewMap := {[dependency.String d]} ∪ depViewMap w |}).

(** [w.Stop()]. *)
Definition Watcher_Stop (w : Watcher) : Watcher :=
  {| Clients := Clients w; MaxStale := MaxStale w; depViewMap := ∅ |}.

(** [*watch.View], a value received from [w.DataCh()]. *)
Record View : Type := {
  View_Dependency : dependency.Dependency;
  View_Data : any
}.

(** ** The resolver *)

Record serviceItem : Type := {
  serviceQuery : dependency.Dependency;
  certURI : option SpiffeIDService;
  addresses : list string
}.

(** [ConsulServiceResolver]; the [logger] field is never used. *)
Record ConsulServiceResolver : Type := {
  clientSet : dependency.ClientSet;
  watcher : Watcher;
  cache : gmap string serviceItem;
  prefix : string;
  namespace : string;
  connect : bool
}.

(** The state the goroutines of the resolver share: the resolver struct,
    the watchers an earlier reset has stopped and replaced, the random
    source of [math/rand], and the log of the one-shot fetches sent to
    the catalog (the string of each fetched query, oldest first). *)
Record World : Type := {
  cr : ConsulServiceResolver;
  retired : list Watcher;
  random : rand.Source;
  fetched : list string
}.

Definition set_cr (f : ConsulServiceResolver -> ConsulServiceResolver)
    (w : World) : World :=
  {| cr := f (cr w); retired := retired w;
     random := random w; fetched := fetched w |}.

Definition set_cache (c : gmap string serviceItem)
    (r : ConsulServiceResolver) : ConsulServiceResolver :=
  {| clientSet := clientSet r; watcher := watcher r; cache := c;
     prefix := prefix r; namespace := namespace r; connect := connect r |}.

Definition set_watcher (wt : Watcher)
    (r : ConsulServiceResolver) : ConsulServiceResolver :=
  {| clientSet := clientSet r; watcher := wt; cache := cache r;
     prefix := prefix r; namespace := namespace r; connect := connect r |}.

(** A method of the resolver: it reads and writes the shared state and
    returns, or panics. *)
Definition M (A : Type) : Type := World -> outcome (A * World).

#[local] Instance M_ret : MRet M := λ A a w, Done (a, w).

#[local] Instance M_bind : MBind M := λ A B f m w,
  match m w with
  | Done (a, w') => f a w'
  | Panic msg => Panic msg
  end.

Definition get_cr : M ConsulServiceResolver := λ w, Done (cr w, w).

Definition panic {A : Type} (msg : string) : M A := λ _, Panic msg.

(** [query.Fetch(cr.clientSet, nil)]: one blocking query to the catalog,
    recorded in the log of fetches. *)
Definition Dependency_Fetch (query : dependency.Dependency)
    : M (result dependency.Error any) := λ w,
  Done (dependency.Fetch query (clientSet (cr w)),
        {| cr := cr w; retired := retired w; random := random w;
           fetched := (fetched w ++ [dependency.String query])%list |}).

(** The type assertion [x.([]*dependency.HealthService)], which panics
    on a value of another type. *)
Definition assert_HealthServices (x : any) : M (list HealthService) :=
  match x with
  | HealthServices services => mret services
  | NilValue =>
      panic "interface conversion: interface {} is nil, not []*dependency.HealthService"
  | OtherValue type_name =>
      panic ("interface conversion: interface {} is " +:+ type_name
             +:+ ", not []*dependency.HealthService")
  end.

(** [rand.Intn(n)] on the shared source. *)
Definition rand_Intn (n : nat) : M nat := λ w,
  match rand.Intn n (random w) with
  | Done (i, src) =>
      Done (i, {| cr := cr w; retired := retired w; random := src;
                  fetched := fetched w |})
  | Panic msg => Panic msg
  end.

(** [healthServiceQuery]. *)
Definition healthServiceQuery (r : ConsulServiceResolver) (service : string)
    : result dependency.Error dependency.Dependency :=
  if connect r
  then dependency.NewHealthConnectQuery service
  else dependency.NewHealthServiceQuery service.

(** The loop of [updateCatalog]: the addresses collected so far, then
    each service in turn. *)
Definition collect_addresses (services : list HealthService)
    : list string :=
  fold_left
    (λ addresses s,
       if (1 <? length (Checks s))%nat
       then (addresses ++ [format_address s])%list
       else addresses)
    services [].

(** [updateCatalog]. *)
Definition updateCatalog (dep : dependency.Dependency)
    (services : list HealthService) : M serviceItem :=
  let addresses := collect_addresses services in
  let item := {| serviceQuery := dep; certURI := None;
                 addresses := addresses |} in
  λ w, Done (item,
             set_cr (λ r, set_cache (<[dependency.String dep := item]> (cache r)) r) w).

(** [cr.watcher.Add(query)], both results dropped. *)
Definition watcher_Add (query : dependency.Dependency) : M unit := λ w,
  Done (tt, set_cr (λ r, set_watcher (snd (Watcher_Add query (watcher r))) r) w).

(** [resolveInternal]. *)
Definition resolveInternal (service : string)
    : M (result error (list string * SpiffeIDService)) :=
  r ← get_cr;
  match healthServiceQuery r service with
  | Err err => mret (Err (DependencyError err))
  | Ok query =>
      let certURI := {| Host := ""; Namespace := namespace r;
                        Datacenter := "dc1"; Service := service |} in
      match cache r !! dependency.String query with
      | Some val => mret (Ok (addresses val, certURI))
      | None =>
          f ← Dependency_Fetch query;
          match f with
          | Err err => mret (Err (DependencyError err))
          | Ok fetch =>
              services ← assert_HealthServices fetch;
              item ← updateCatalog query services;
              _ ← watcher_Add query;
              mret (Ok (addresses item, certURI))
          end
      end
  end.

(** The service name [ResolveAll] resolves:
    [fmt.Sprintf("%s%s", cr.prefix, strings.TrimSuffix(function, "."+cr.namespace))]. *)
Definition service_name (r : ConsulServiceResolver) (function : string)
    : string :=
  prefix r +:+ strings.TrimSuffix function ("." +:+ namespace r).

(** [ResolveAll]. *)
Definition ResolveAll (function : string)
    : M (result error (list string * SpiffeIDService)) :=
  r ← get_cr;
  resolveInternal (service_name r function).

(** [balance]. *)
Definition balance (candidates : slice string) (certURI : SpiffeIDService)
    : M (result error (string * SpiffeIDService)) :=
  if match candidates with nil_slice => true | Slice _ => false end
     || (len candidates =? 0)%nat
  then mret (Err (Errorf "no candidate available"))
  else
    idx ← (if (1 <? len candidates)%nat
           then rand_Intn (len candidates)
           else mret 0%nat);
    match index candidates idx with
    | Some address => mret (Ok (address, certURI))
    | None => panic "index out of range"
    end.

(** [Resolve]. *)
Definition Resolve (function : string)
    : M (result error (string * SpiffeIDService)) :=
  r ← ResolveAll function;
  match r with
  | Err err => mret (Err err)
  | Ok (candidates, certURI) => balance (Slice candidates) certURI
  end.

(** *** The watch loop *)

(** What [for d := range ch] gets from the channel: the next value, or
    the news that the channel is closed and drained. *)
Inductive received : Type :=
  | Value (d : View)
  | Closed.

Inductive loop : Type :=
  | Running
  | Returned.

(** The body of the loop of [watch]:
    [cr.updateCatalog(d.Dependency(), d.Data().([]*dependency.HealthService))]. *)
Definition watch_body (d : View) : M unit :=
  services ← assert_HealthServices (View_Data d);
  _ ← updateCatalog (View_Dependency d) services;
  mret tt.

(** One turn of [watch]: the loop has no [break] and no [return], it
    leaves only when the channel is closed. *)
Definition watch_receive (x : received) : M loop :=
  match x with
  | Value d => _ ← watch_body d; mret Running
  | Closed => mret Returned
  end.

(** [watch] on a channel that delivers [ch] and is then closed. *)
Fixpoint watch (ch : list View) : M unit :=
  match ch with
  | [] => _ ← watch_receive Closed; mret tt
  | d :: ch' => _ ← watch_receive (Value d); watch ch'
  end.

(** *** The reset loop *)

(** The staleness the watcher tolerates: [10000 * time.Millisecond]. *)
Definition maxStale : time.Duration := 10000 * time.Millisecond.

(** The period of the ticker of [reset]:
    [time.Duration(30) * time.Minute]. *)
Definition reset_period : time.Duration := 30 * time.Minute.

(** The body of the loop of [reset], run at each tick: stop the watcher,
    make a new one, replace the cache by an empty map and install the
    new watcher. The stopped watcher is kept among the retired ones. *)
Definition reset_body : M unit := λ w,
  let stopped := Watcher_Stop (watcher (cr w)) in
  let watcher' := NewWatcher (clientSet (cr w)) maxStale in
  Done (tt,
        {| cr := set_watcher watcher' (set_cache ∅ (cr w));
           retired := stopped :: retired w;
           random := random w;
           fetched := fetched w |}).

(** [reset] over the first [ticks] ticks of its ticker. *)
Fixpoint reset (ticks : nat) : M unit :=
  match ticks with
  | O => mret tt
  | S n => _ ← reset_body; reset n
  end.

(** *** Construction *)

(** [NewConsulResolver], up to the start of the two goroutines. *)
Definition NewConsulResolver (config : types.ProviderConfig)
    : result error ConsulServiceResolver :=
  match
    dependency.CreateConsulClient
      {| dependency.InputAddress := types.Addr (types.Consul config);
         dependency.Token := types.ACLToken (types.Consul config);
         dependency.SSLEnabled :=
           strings.HasPrefix (types.Addr (types.Consul config)) "https";
         dependency.SSLCACert := types.CACert (types.Consul config);
         dependency.SSLCert := types.ClientCert (types.Consul config);
         dependency.SSLKey := types.ClientKey (types.Consul config);
         dependency.SSLVerify :=
           negb (types.TLSSkipVerify (types.Consul config)) |}
  with
  | Err err => Err (DependencyError err)
  | Ok clients =>
      Ok {| clientSet := clients;
            watcher := NewWatcher clients maxStale;
            cache := ∅;
            prefix := types.JobPrefix (types.Scheduling config);
            namespace := types.Namespace (types.Scheduling config);
            connect := types.ConnectAware (types.Consul config) |}
  end.

(** The shared state when the goroutines start. *)
Definition start (r : ConsulServiceResolver) (src : rand.Source) : World :=
  {| cr := r; retired := []; random := src; fetched := [] |}.

(** *** The goroutines together

    The resolver is used by any number of callers while the watch loop
    and the reset loop run. One history of the system is a sequence of
    their steps, each taken as a whole. *)
Inductive event : Type :=
  | CallResolveAll (function : string)
  | CallResolve (function : string)
  | Push (d : View)
  | Tick.

Definition step (e : event) : M unit :=
  match e with
  | CallResolveAll function => _ ← ResolveAll function; mret tt
  | CallResolve function => _ ← Resolve function; mret tt
  | Push d => _ ← watch_receive (Value d); mret tt
  | Tick => reset_body
  end.

Fixpoint run (history : list event) : M unit :=
  match history with
  | [] => mret tt
  | e :: history' => _ ← step e; run history'
  end.

(** *** The selection rule in the words of the specification *)

(** An instance is eligible when it reports more than one health check. *)
Definition eligible (s : HealthService) : Prop :=
  (1 < length (Checks s))%nat.

#[global] Instance eligible_dec (s : HealthService) : Decision (eligible s) :=
  decide (1 < length (Checks s))%nat.

(** The addresses of the eligible instances, in the order of the catalog. *)
Definition snapshot_addresses (services : list HealthService)
    : list string :=
  format_address <$> filter eligible services.

(** The identity of a service: its namespace, the placeholder
    datacenter and its name. *)
Definition identity (r : ConsulServiceResolver) (service : string)
    : SpiffeIDService :=
  {| Host := ""; Namespace := namespace r;
     Datacenter := "dc1"; Service := service |}.

(** The error of [balance]. *)
Definition NoCandidateError : error := Errorf "no candidate available".

(** The item a catalog snapshot of a query amounts to, and the state
    once it is stored under the string of the query. *)
Definition snapshot_item (dep : dependency.Dependency)
    (services : list HealthService) : serviceItem :=
  {| serviceQuery := dep; certURI := None;
     addresses := snapshot_addresses services |}.

Definition apply_snapshot (dep : dependency.Dependency)
    (services : list HealthService) (w : World) : World :=
  set_cr
    (λ r, set_cache
            (<[dependency.String dep := snapshot_item dep services]> (cache r)) r)
    w.

(** The state once a fetch of [query] is in the log. *)
Definition fetch_logged (query : dependency.Dependency) (w : World) : World :=
  {| cr := cr w; retired := retired w; random := random w;
     fetched := (fetched w ++ [dependency.String query])%list |}.

(** The state once [query] is registered with the watcher. *)
Definition registered (query : dependency.Dependency) (w : World) : World :=
  set_cr (λ r, set_watcher (snd (Watcher_Add query (watcher r))) r) w.

(** The query is registered for continuous updates. *)
Definition subscribed (query : dependency.Dependency) (w : World) : Prop :=
  dependency.String query ∈ depViewMap (watcher (cr w)).

(** The number of one-shot fetches sent so far. *)
Definition fetches (w : World) : nat := length (fetched w).

(** *** What holds of every state the system reaches *)

(** An item sits under the string of its own query and lists the eligible
    instances of some catalog snapshot. *)
Definition item_ok (key : string) (item : serviceItem) : Prop :=
  key = dependency.String (serviceQuery item)
  /\ certURI item = None
  /\ exists services, addresses item = snapshot_addresses services.

(** Every cached item is of that kind, and a watcher that a reset has
    replaced holds no subscription. *)
Definition consistent (w : World) : Prop :=
  (forall key item, cache (cr w) !! key = Some item -> item_ok key item)
  /\ Forall (λ old, depViewMap old = ∅) (retired w).

(** Two states of one resolver: the configuration and the client set are
    never assigned after construction. *)
Definition same_settings (w w' : World) : Prop :=
  clientSet (cr w') = clientSet (cr w)
  /\ prefix (cr w') = prefix (cr w)
  /\ namespace (cr w') = namespace (cr w)
  /\ connect (cr w') = connect (cr w).

(** The catalog answers a health query with a list of health services. *)
Definition typed_catalog (clients : dependency.ClientSet) : Prop :=
  forall query x,
    dependency.Fetch query clients = Ok x ->
    exists services, x = HealthServices services.

(** The data of a view is a list of health services. *)
Definition typed_view (d : View) : Prop :=
  exists services, View_Data d = HealthServices services.

Definition typed_event (e : event) : Prop :=
  match e with
  | Push d => typed_view d
  | _ => True
  end.

(** *** The rest of [NewConsulResolver]: what it asks of the client set *)

(** The input [NewConsulResolver] hands to [CreateConsulClient]. *)
Definition consul_client_input (config : types.ProviderConfig)
    : dependency.CreateConsulClientInput :=
  {| dependency.InputAddress := types.Addr (types.Consul config);
     dependency.Token := types.ACLToken (types.Consul config);
     dependency.SSLEnabled :=
       strings.HasPrefix (types.Addr (types.Consul config)) "https";
     dependency.SSLCACert := types.CACert (types.Consul config);
     dependency.SSLCert := types.ClientCert (types.Consul config);
     dependency.SSLKey := types.ClientKey (types.Consul config);
     dependency.SSLVerify :=
       negb (types.TLSSkipVerify (types.Consul config)) |}.

(** *** A catalog that changes

    In the model the answer to a fetch is a function of the client set, so
    a change of the catalog behind the client set is a change of that
    function. A story is a history in which the catalog may change between
    the steps of the goroutines. *)
Definition set_clientSet (clients : dependency.ClientSet)
    (r : ConsulServiceResolver) : ConsulServiceResolver :=
  {| clientSet := clients; watcher := watcher r; cache := cache r;
     prefix := prefix r; namespace := namespace r; connect := connect r |}.

Definition catalog_changes (clients : dependency.ClientSet) (w : World)
    : World :=
  set_cr (set_clientSet clients) w.

Inductive moment : Type :=
  | Act (e : event)
  | CatalogChange (clients : dependency.ClientSet).

Definition moment_step (m : moment) : M unit :=
  match m with
  | Act e => step e
  | CatalogChange clients => λ w, Done (tt, catalog_changes clients w)
  end.

Fixpoint play (story : list moment) : M unit :=
  match story with
  | [] => mret tt
  | m :: story' => _ ← moment_step m; play story'
  end.

Definition typed_moment (m : moment) : Prop :=
  match m with
  | Act e => typed_event e
  | CatalogChange clients => typed_catalog clients
  end.

(** The moment is a call of [ResolveAll] or of [Resolve]. *)
Definition is_call (m : moment) : bool :=
  match m with
  | Act (CallResolveAll _) | Act (CallResolve _) => true
  | _ => false
  end.

(** The moment is a tick of the reset loop. *)
Definition is_tick (m : moment) : bool :=
  match m with
  | Act Tick => true
  | _ => false
  end.

(** The number of calls in a story. *)
Definition calls (story : list moment) : nat :=
  length (filter (λ m, is_call m = true) story).

(** Consistent, and every query the watcher in use is subscribed to has an
    item in the cache. *)
Definition coherent (w : World) : Prop :=
  consistent w
  /\ forall key, key ∈ depViewMap (watcher (cr w)) ->
                 is_Some (cache (cr w) !! key).

(** The last view of a channel history for the query string [key]. *)
Fixpoint last_push (key : string) (ch : list View) : option View :=
  match ch with
  | [] => None
  | d :: ch' =>
      match last_push key ch' with
      | Some d' => Some d'
      | None =>
          if decide (dependency.String (View_Dependency d) = key)
          then Some d
          else None
      end
  end.

(** The state with another random source. *)
Definition with_random (src : rand.Source) (w : World) : World :=
  {| cr := cr w; retired := retired w; random := src; fetched := fetched w |}.

(** Two instances that [updateCatalog] cannot tell apart: the same
    address, the same port and as many health checks. *)
Definition same_endpoint (s s' : HealthService) : Prop :=
  Address s = Address s' /\ Port s = Port s'
  /\ length (Checks s) = length (Checks s').

(** *** The goroutines, one shared-memory operation at a time

    The resolver holds no lock. Between two accesses of the cache, of the
    watcher or of the catalog by one goroutine, any other goroutine may
    run: a call of [ResolveAll] or [Resolve] is cut at its accesses (the
    load of the cache, the fetch, the store, the registration, the draw
    of [balance]) and the body of [reset] at its three writes. Each
    access is taken as one atomic step: those of [sync.Map] are, the
    assignments to [cr.cache] and [cr.watcher] are modelled as such. *)

(** What a view of a health query pushes: its query and a list of health
    services. The watcher only ever holds the health queries that
    [resolveInternal] registers, so this is all its channel carries. *)
Definition push : Type := (dependency.Dependency * list HealthService)%type.

Definition view_of (p : push) : View :=
  {| View_Dependency := p.1; View_Data := HealthServices p.2 |}.

(** The snapshots of a sequence of pushes, stored one after the other. *)
Definition apply_pushes (pushes : list push) (w : World) : World :=
  fold_left (λ w' p, apply_snapshot p.1 p.2 w') pushes w.

(** Where a call of [ResolveAll] ([select] is [false]) or of [Resolve]
    ([select] is [true]) stands. *)
Inductive call : Type :=
  | Called (function : string) (select : bool)
  | Missed (query : dependency.Dependency) (certURI : SpiffeIDService)
      (select : bool)
  | Fetched (query : dependency.Dependency) (services : list HealthService)
      (certURI : SpiffeIDService) (select : bool)
  | Stored (query : dependency.Dependency) (item : serviceItem)
      (certURI : SpiffeIDService) (select : bool)
  | Resolved (res : result error (list string * SpiffeIDService))
      (select : bool)
  | Finished (res : result error (string * SpiffeIDService)).

(** The next operation of a call: the query and [cache.Load]; then
    [query.Fetch] and the type assertion; then [updateCatalog], which is
    [cache.Store]; then [watcher.Add]; for [Resolve], then [balance]. *)
Definition call_step (c : call) : M call :=
  match c with
  | Called function select =>
      r ← get_cr;
      let service := service_name r function in
      match healthServiceQuery r service with
      | Err err => mret (Resolved (Err (DependencyError err)) select)
      | Ok query =>
          let certURI := {| Host := ""; Namespace := namespace r;
                            Datacenter := "dc1"; Service := service |} in
          match cache r !! dependency.String query with
          | Some val => mret (Resolved (Ok (addresses val, certURI)) select)
          | None => mret (Missed query certURI select)
          end
      end
  | Missed query certURI select =>
      f ← Dependency_Fetch query;
      match f with
      | Err err => mret (Resolved (Err (DependencyError err)) select)
      | Ok fetch =>
          services ← assert_HealthServices fetch;
          mret (Fetched query services certURI select)
      end
  | Fetched query services certURI select =>
      item ← updateCatalog query services;
      mret (Stored query item certURI select)
  | Stored query item certURI select =>
      _ ← watcher_Add query;
      mret (Resolved (Ok (addresses item, certURI)) select)
  | Resolved res true =>
      match res with
      | Err err => mret (Finished (Err err))
      | Ok (candidates, certURI) =>
          res' ← balance (Slice candidates) certURI;
          mret (Finished res')
      end
  | Resolved res false => mret (Resolved res false)
  | Finished res => mret (Finished res)
  end.

Fixpoint call_steps (n : nat) (c : call) : M call :=
  match n with
  | O => mret c
  | S n' => c' ← call_step c; call_steps n' c'
  end.

(** Where the body of the loop of [reset] stands: waiting for the tick;
    after [cr.watcher.Stop()]; after [watch.NewWatcher] and
    [cr.cache = sync.Map{}], with the new watcher not yet installed. *)
Inductive reset_pc : Type :=
  | ResetWaiting
  | ResetStopped
  | ResetCleared (watcher' : Watcher).

(** Modelled from the spec: the data channel of a watcher of
    consul-template, which is not part of this repository. It holds the
    pushes delivered and not yet received, in order; following section 4.4
    of the specification, stopping the watcher closes it. *)
Record DataCh : Type := {
  pending : list push;
  closed : bool
}.

(** The goroutines and what they share. [dataCh] is the channel [watch]
    ranges over: [cr.watcher.DataCh()] is evaluated once, when the loop
    starts, so it is the channel of the watcher [NewConsulResolver] made,
    and [reset] does not start [watch] again. *)
Record System : Type := {
  shared : World;
  callers : list call;
  dataCh : DataCh;
  watching : loop;
  resetting : reset_pc
}.

Inductive operation : Type :=
  | Begin (function : string) (select : bool)
  | Advance (caller : nat)
  | Deliver (p : push)
  | Take
  | ResetStep
  | Catalog (clients : dependency.ClientSet).

(** The state when the goroutines start. *)
Definition boot (w : World) : System :=
  {| shared := w; callers := [];
     dataCh := {| pending := []; closed := false |};
     watching := Running; resetting := ResetWaiting |}.

Definition with_shared (w : World) (s : System) : System :=
  {| shared := w; callers := callers s; dataCh := dataCh s;
     watching := watching s; resetting := resetting s |}.

(** One operation of one goroutine.
    - [Begin]: a caller enters [ResolveAll] or [Resolve].
    - [Advance]: a caller does its next operation.
    - [Deliver]: a view of the watcher pushes on the channel; there is
      such a view only for a query registered with the watcher in use,
      and only until the watcher is stopped.
    - [Take]: [watch] receives from its channel: the next value, or, on a
      closed and drained channel, the end of the loop; on an open and
      empty channel it waits.
    - [ResetStep]: [reset] does its next write: at the tick [Stop], which
      closes the channel; then the new watcher and the empty cache; then
      the new watcher in place of the stopped one.
    - [Catalog]: the catalog behind the client set changes. *)
Definition system_step (o : operation) (s : System) : outcome System :=
  match o with
  | Begin function select =>
      Done {| shared := shared s;
              callers := (callers s ++ [Called function select])%list;
              dataCh := dataCh s; watching := watching s;
              resetting := resetting s |}
  | Advance i =>
      match callers s !! i with
      | None => Done s
      | Some c =>
          match call_step c (shared s) with
          | Done (c', w') =>
              Done {| shared := w'; callers := <[i := c']> (callers s);
                      dataCh := dataCh s; watching := watching s;
                      resetting := resetting s |}
          | Panic msg => Panic msg
          end
      end
  | Deliver p =>
      if negb (closed (dataCh s))
         && bool_decide
              (dependency.String p.1 ∈ depViewMap (watcher (cr (shared s))))
      then Done {| shared := shared s; callers := callers s;
                   dataCh := {| pending := (pending (dataCh s) ++ [p])%list;
                                closed := closed (dataCh s) |};
                   watching := watching s; resetting := resetting s |}
      else Done s
  | Take =>
      match watching s with
      | Returned => Done s
      | Running =>
          match pending (dataCh s) with
          | p :: rest =>
              match watch_receive (Value (view_of p)) (shared s) with
              | Done (status, w') =>
                  Done {| shared := w'; callers := callers s;
                          dataCh := {| pending := rest;
                                       closed := closed (dataCh s) |};
                          watching := status; resetting := resetting s |}
              | Panic msg => Panic msg
              end
          | [] =>
              if closed (dataCh s)
              then
                match watch_receive Closed (shared s) with
                | Done (status, w') =>
                    Done {| shared := w'; callers := callers s;
                            dataCh := dataCh s;
                            watching := status; resetting := resetting s |}
                | Panic msg => Panic msg
                end
              else Done s
          end
      end
  | ResetStep =>
      match resetting s with
      | ResetWaiting =>
          Done {| shared :=
                    set_cr (λ r, set_watcher (Watcher_Stop (watcher r)) r)
                      (shared s);
                  callers := callers s;
                  dataCh := {| pending := pending (dataCh s); closed := true |};
                  watching := watching s; resetting := ResetStopped |}
      | ResetStopped =>
          Done {| shared := set_cr (set_cache ∅) (shared s);
                  callers := callers s; dataCh := dataCh s;
                  watching := watching s;
                  resetting :=
                    ResetCleared
                      (NewWatcher (clientSet (cr (shared s))) maxStale) |}
      | ResetCleared watcher' =>
          Done {| shared :=
                    {| cr := set_watcher watcher' (cr (shared s));
                       retired := watcher (cr (shared s)) :: retired (shared s);
                       random := random (shared s);
                       fetched := fetched (shared s) |};
                  callers := callers s; dataCh := dataCh s;
                  watching := watching s; resetting := ResetWaiting |}
      end
  | Catalog clients =>
      Done (with_shared (catalog_changes clients (shared s)) s)
  end.

Fixpoint system_run (operations : list operation) (s : System)
    : outcome System :=
  match operations with
  | [] => Done s
  | o :: operations' =>
      match system_step o s with
      | Done s' => system_run operations' s'
      | Panic msg => Panic msg
      end
  end.



End Resolver.

(** ** A catalog for the examples

    An implementation of the [dependency] interface that computes: a query
    is its mode and its service name, a client set is the answer of the
    catalog to each query string. *)
Module Example.

Definition query_string (q : bool * string) : string :=
  (if q.1 then "health.connect(" else "health.service(") +:+ q.2 +:+ "|passing)".

Definition new_query (connect : bool) (service : string)
    : result dependency.Error (bool * string) :=
  if String.eqb service ""
  then Err {| dependency.Message := "health.service: invalid format" |}
  else Ok (connect, service).

#[export] Instance catalog : dependency.Interface := {|
  dependency.Dependency := bool * string;
  dependency.NewHealthServiceQuery := new_query false;
  dependency.NewHealthConnectQuery := new_query true;
  dependency.String := query_string;
  dependency.ClientSet := string -> result dependency.Error any;
  dependency.CreateConsulClient := λ _,
    Ok (λ _, Err {| dependency.Message := "no such service" |});
  dependency.Fetch := λ q clients, clients (query_string q)
|}.

Definition check (id : string) : HealthCheck :=
  {| CheckID := id; Status := "passing" |}.

(** Three instances with no, one and two health checks. *)
Definition instance0 : HealthService :=
  {| Address := "10.0.0.1"; Port := 8080; Checks := [] |}.
Definition instance1 : HealthService :=
  {| Address := "10.0.0.2"; Port := 8080; Checks := [check "serf"] |}.
Definition instance2 : HealthService :=
  {| Address := "10.0.0.3"; Port := 8081;
     Checks := [check "serf"; check "http"] |}.
Definition instance3 : HealthService :=
  {| Address := "10.0.0.4"; Port := 9000;
     Checks := [check "serf"; check "http"; check "tcp"] |}.

Definition echo_query : @dependency.Dependency catalog := (false, "svc-echo").
Definition down_query : @dependency.Dependency catalog := (false, "svc-down").
Definition idle_query : @dependency.Dependency catalog := (false, "svc-idle").

Definition echo_id : SpiffeIDService :=
  {| Host := ""; Namespace := "openfaas-fn";
     Datacenter := "dc1"; Service := "svc-echo" |}.

Definition idle_id : SpiffeIDService :=
  {| Host := ""; Namespace := "openfaas-fn";
     Datacenter := "dc1"; Service := "svc-idle" |}.

Definition down_error : dependency.Error :=
  {| dependency.Message := "connection refused" |}.

Definition echo_key : string := "health.service(svc-echo|passing)".
Definition down_key : string := "health.service(svc-down|passing)".
Definition odd_key : string := "health.service(svc-odd|passing)".

(** The catalog knows [svc-echo], fails on [svc-down], answers with a nil
    value for [svc-odd] and has no instance of anything else. *)
Definition consul : string -> result dependency.Error any := λ key,
  if String.eqb key echo_key
  then Ok (HealthServices [instance0; instance1; instance2])
  else if String.eqb key down_key
  then Err down_error
  else if String.eqb key odd_key
  then Ok NilValue
  else Ok (HealthServices []).

Definition resolver0 : ConsulServiceResolver :=
  {| clientSet := consul;
     watcher := NewWatcher consul maxStale;
     cache := ∅;
     prefix := "svc-";
     namespace := "openfaas-fn";
     connect := false |}.

Definition source0 : rand.Source :=
  {| rand.stream := λ n, (7 * n + 3)%nat; rand.drawn := 0 |}.

(** The state at start, and the state once [echo] has been resolved. *)
Definition world0 : World := start resolver0 source0.

Definition echo_item : serviceItem :=
  {| serviceQuery := echo_query; certURI := None;
     addresses := ["10.0.0.3:8081"] |}.

Definition world1 : World :=
  {| cr := set_watcher
             {| Clients := consul; MaxStale := maxStale;
                depViewMap := {[echo_key]} |}
             (set_cache {[echo_key := echo_item]} resolver0);
     retired := []; random := source0; fetched := [echo_key] |}.

Definition echo_push : View :=
  {| View_Dependency := echo_query;
     View_Data := HealthServices [instance3; instance1; instance2] |}.

Definition nil_push : View :=
  {| View_Dependency := echo_query; View_Data := NilValue |}.

(** An instance like [instance2] whose checks are failing. *)
Definition instance2_critical : HealthService :=
  {| Address := "10.0.0.3"; Port := 8081;
     Checks := [{| CheckID := "serf"; Status := "critical" |};
                {| CheckID := "http"; Status := "critical" |}] |}.

Definition weak_query : @dependency.Dependency catalog := (false, "svc-weak").
Definition weak_key : string := "health.service(svc-weak|passing)".

(** A catalog that answers every fetch it does not refuse with a list of
    health services: [svc-weak] has two instances, none with more than one
    check. *)
Definition consul_typed : string -> result dependency.Error any := λ key,
  if String.eqb key echo_key
  then Ok (HealthServices [instance0; instance1; instance2])
  else if String.eqb key down_key
  then Err down_error
  else if String.eqb key weak_key
  then Ok (HealthServices [instance0; instance1])
  else Ok (HealthServices []).

(** The example states behind that catalog. *)
Definition world0_typed : World := catalog_changes consul_typed world0.
Definition world1_typed : World := catalog_changes consul_typed world1.

(** A resolver without prefix, for which the function name ".openfaas-fn"
    is the empty service name, which no query can be built for. *)
Definition world_bare : World :=
  start {| clientSet := consul; watcher := NewWatcher consul maxStale;
           cache := ∅; prefix := ""; namespace := "openfaas-fn";
           connect := true |}
        source0.

Definition bad_query_error : dependency.Error :=
  {| dependency.Message := "health.service: invalid format" |}.

Definition idle_push : View :=
  {| View_Dependency := idle_query; View_Data := HealthServices [instance3] |}.

Definition echo_push_again : View :=
  {| View_Dependency := echo_query; View_Data := HealthServices [instance2] |}.

Definition config0 : types.ProviderConfig :=
  {| types.Consul :=
       {| types.Addr := "https://consul.service:8501";
          types.ACLToken := ""; types.CACert := "/etc/consul/ca.pem";
          types.ClientCert := ""; types.ClientKey := "";
          types.TLSSkipVerify := false; types.ConnectAware := false |};
     types.Scheduling :=
       {| types.JobPrefix := "svc-"; types.Namespace := "openfaas-fn" |} |}.

(** The resolver [NewConsulResolver] makes of [config0]. *)
Definition resolver_new : ConsulServiceResolver :=
  {| clientSet := λ _, Err {| dependency.Message := "no such service" |};
     watcher :=
       NewWatcher (λ _, Err {| dependency.Message := "no such service" |})
         maxStale;
     cache := ∅; prefix := "svc-"; namespace := "openfaas-fn";
     connect := false |}.

Definition story0 : list moment :=
  [CatalogChange consul_typed;
   Act (CallResolveAll "echo.openfaas-fn");
   Act (Push echo_push);
   Act Tick;
   Act (CallResolve "echo.openfaas-fn");
   Act (CallResolve "down.openfaas-fn")].

Definition story1 : list moment :=
  [Act (CallResolveAll "echo.openfaas-fn");
   Act (Push echo_push);
   CatalogChange consul_typed;
   Act (CallResolve "echo");
   Act (CallResolveAll "weak.openfaas-fn")].

(** Pushes of the watcher, and states of the goroutines: the loop running
    on the open channel with an older push of [echo] pending; the loop
    running on the channel that [Stop] has closed, two pushes pending. *)
Definition echo_p : push := (echo_query, [instance3; instance1; instance2]).
Definition echo_old_p : push := (echo_query, [instance2]).

Definition system_open : System :=
  {| shared := world1; callers := [];
     dataCh := {| pending := [echo_old_p]; closed := false |};
     watching := Running; resetting := ResetWaiting |}.


(** The state once the push [echo_p] is stored: [echo] has two addresses. *)
Definition world2 : World := apply_pushes [echo_p] world1.

(** A call whose store and registration are separated by a whole turn of
    [reset], and a call whose registration falls between [Stop] and the
    new watcher. *)
Definition tick_between_store_and_add : list operation :=
  [Begin "echo.openfaas-fn" false;
   Advance 0; Advance 0; Advance 0;
   ResetStep; ResetStep; ResetStep;
   Advance 0].

Definition add_on_stopped_watcher : list operation :=
  [Begin "echo.openfaas-fn" false;
   Advance 0; Advance 0; Advance 0;
   ResetStep;
   Advance 0;
   ResetStep; ResetStep].


End Example.

(** * Properties *)

(** ** Strings *)
Section StringFacts.

Lemma substring_whole (s : string) :
  String.substring 0 (String.length s) s = s.
Proof. induction s as [|a s IH]; simpl; [done | by rewrite IH]. Qed.

Lemma substring_app_left (s t : string) :
  String.substring 0 (String.length s) (s +:+ t) = s.
Proof.
  induction s as [|a s IH]; simpl.
  - by destruct t.
  - by rewrite IH.
Qed.

Lemma substring_app_right (s t : string) (n : nat) :
  String.substring (String.length s) n (s +:+ t) = String.substring 0 n t.
Proof. induction s as [|a s IH]; simpl; [done | apply IH]. Qed.

Lemma string_length_app (s t : string) :
  String.length (s +:+ t) = (String.length s + String.length t)%nat.
Proof. induction s as [|a s IH]; simpl; [done | by rewrite IH]. Qed.

(** A string that ends with the suffix loses exactly the suffix. *)
Lemma TrimSuffix_app (s suffix : string) :
  strings.TrimSuffix (s +:+ suffix) suffix = s.
Proof.
  unfold strings.TrimSuffix, strings.HasSuffix.
  rewrite string_length_app.
  replace (String.length s + String.length suffix - String.length suffix)%nat
    with (String.length s) by lia.
  rewrite substring_app_right, substring_whole, String.eqb_refl.
  rewrite substring_app_left.
  destruct (Nat.leb_spec (String.length suffix)
              (String.length s + String.length suffix)); [done | lia].
Qed.

(** A string that does not end with the suffix is left as it is. *)
Lemma TrimSuffix_other (s suffix : string) :
  strings.HasSuffix s suffix = false -> strings.TrimSuffix s suffix = s.
Proof. unfold strings.TrimSuffix. by intros ->. Qed.

Lemma substring_split (s : string) (k n : nat) :
  String.length s = (k + n)%nat ->
  String.substring 0 k s +:+ String.substring k n s = s.
Proof.
  revert k. induction s as [|a s IH]; intros k Hlen.
  - simpl in Hlen. assert (k = 0%nat) as -> by lia.
    by assert (n = 0%nat) as -> by lia.
  - destruct k as [|k]; simpl in *.
    + rewrite <- Hlen. by rewrite substring_whole.
    + change (String a (String.substring 0 k s +:+ String.substring k n s)
              = String a s).
      f_equal. apply IH. lia.
Qed.

(** What [TrimSuffix] returns, followed by what it took off, is the
    string it was given. *)
Lemma TrimSuffix_cases (s suffix : string) :
  strings.TrimSuffix s suffix = s
  \/ strings.TrimSuffix s suffix +:+ suffix = s.
Proof.
  unfold strings.TrimSuffix, strings.HasSuffix.
  destruct (Nat.leb_spec (String.length suffix) (String.length s)) as [Hle|];
    simpl; [| by left].
  destruct (String.eqb_spec
              (String.substring (String.length s - String.length suffix)
                 (String.length suffix) s) suffix) as [Heq|]; [| by left].
  right.
  pose proof (substring_split s (String.length s - String.length suffix)
                (String.length suffix)) as Hsplit.
  rewrite Heq in Hsplit. apply Hsplit. lia.
Qed.

End StringFacts.

(** ** The resolver *)
Section ResolverFacts.

Context `{deps : dependency.Interface}.

Implicit Types (w : World) (r : ConsulServiceResolver)
  (query dep : dependency.Dependency) (services : list HealthService).

(** *** The filter of [updateCatalog] *)

Lemma collect_addresses_from services (acc : list string) :
  fold_left
    (λ addresses s,
       if (1 <? length (Checks s))%nat
       then (addresses ++ [format_address s])%list
       else addresses)
    services acc
  = (acc ++ snapshot_addresses services)%list.
Proof.
  unfold snapshot_addresses.
  revert acc. induction services as [|s services IH]; intros acc; simpl.
  - by rewrite app_nil_r.
  - rewrite IH, filter_cons.
    destruct (decide (eligible s)) as [Hyes|Hno]; unfold eligible in *.
    + destruct (Nat.ltb_spec 1 (length (Checks s))); [| lia].
      by rewrite fmap_cons, <- app_assoc.
    + destruct (Nat.ltb_spec 1 (length (Checks s))); [lia | done].
Qed.

Lemma collect_addresses_snapshot services :
  collect_addresses services = snapshot_addresses services.
Proof. unfold collect_addresses. by rewrite collect_addresses_from. Qed.

Lemma updateCatalog_eq dep services w :
  updateCatalog dep services w
  = Done (snapshot_item dep services, apply_snapshot dep services w).
Proof.
  unfold updateCatalog, apply_snapshot, snapshot_item.
  by rewrite collect_addresses_snapshot.
Qed.

(** *** The four ways through [resolveInternal] *)

Lemma resolveInternal_bad_query service err w :
  healthServiceQuery (cr w) service = Err err ->
  resolveInternal service w = Done (Err (DependencyError err), w).
Proof.
  intros Hq. unfold resolveInternal, mbind, M_bind, get_cr; simpl.
  by rewrite Hq.
Qed.

Lemma resolveInternal_hit service query val w :
  healthServiceQuery (cr w) service = Ok query ->
  cache (cr w) !! dependency.String query = Some val ->
  resolveInternal service w
  = Done (Ok (addresses val, identity (cr w) service), w).
Proof.
  intros Hq Hc. unfold resolveInternal, mbind, M_bind, get_cr; simpl.
  by rewrite Hq, Hc.
Qed.

Lemma resolveInternal_fetch_error service query err w :
  healthServiceQuery (cr w) service = Ok query ->
  cache (cr w) !! dependency.String query = None ->
  dependency.Fetch query (clientSet (cr w)) = Err err ->
  resolveInternal service w
  = Done (Err (DependencyError err), fetch_logged query w).
Proof.
  intros Hq Hc Hf.
  unfold resolveInternal, mbind, M_bind, get_cr, Dependency_Fetch; simpl.
  by rewrite Hq, Hc, Hf.
Qed.

Lemma resolveInternal_miss service query services w :
  healthServiceQuery (cr w) service = Ok query ->
  cache (cr w) !! dependency.String query = None ->
  dependency.Fetch query (clientSet (cr w)) = Ok (HealthServices services) ->
  resolveInternal service w
  = Done (Ok (snapshot_addresses services, identity (cr w) service),
          registered query (apply_snapshot query services (fetch_logged query w))).
Proof.
  intros Hq Hc Hf.
  unfold resolveInternal, mbind, M_bind, get_cr, Dependency_Fetch; simpl.
  rewrite Hq, Hc, Hf; simpl.
  by rewrite collect_addresses_snapshot.
Qed.

Lemma ResolveAll_eq function w :
  ResolveAll function w = resolveInternal (service_name (cr w) function) w.
Proof. reflexivity. Qed.

(** *** What the two writers of the cache leave behind *)

Lemma apply_snapshot_lookup dep services w :
  cache (cr (apply_snapshot dep services w)) !! dependency.String dep
  = Some (snapshot_item dep services).
Proof. unfold apply_snapshot; simpl. apply lookup_insert_eq. Qed.

Lemma apply_snapshot_lookup_ne dep services w (key : string) :
  key ≠ dependency.String dep ->
  cache (cr (apply_snapshot dep services w)) !! key = cache (cr w) !! key.
Proof. intros Hne. unfold apply_snapshot; simpl. by apply lookup_insert_ne. Qed.

Lemma watch_receive_value dep services w :
  watch_receive
    (Value {| View_Dependency := dep; View_Data := HealthServices services |}) w
  = Done (Running, apply_snapshot dep services w).
Proof.
  unfold watch_receive, watch_body, mbind, M_bind; simpl.
  by rewrite collect_addresses_snapshot.
Qed.

Lemma registered_subscribed query w : subscribed query (registered query w).
Proof.
  unfold subscribed, registered, Watcher_Add; simpl.
  destruct (decide (dependency.String query ∈ depViewMap (watcher (cr w))));
    simpl; set_solver.
Qed.

Lemma snapshot_addresses_elem services (a : string) :
  a ∈ snapshot_addresses services
  <-> exists s, s ∈ services /\ eligible s /\ a = format_address s.
Proof.
  unfold snapshot_addresses. rewrite list_elem_of_fmap. split.
  - intros (s & -> & Hin). apply list_elem_of_filter in Hin as [He Hin]. eauto.
  - intros (s & Hin & He & ->). exists s. split; [done |].
    by apply list_elem_of_filter.
Qed.

(** C1. Whenever a catalog snapshot is applied, by [updateCatalog] itself,
    by the watch loop or by the one-shot fetch of a cache miss, the item
    stored under the string of the query lists "address:port" of exactly
    the instances with more than one health check, in the order of the
    catalog; of three instances with 0, 1 and 2 checks only the last one
    is listed. *)
Theorem snapshot_lists_eligible_in_order dep services w :
  let item :=
    {| serviceQuery := dep; certURI := None;
       addresses :=
         format_address <$> filter (λ s, 1 < length (Checks s))%nat services |} in
  (exists w', updateCatalog dep services w = Done (item, w')
     /\ cache (cr w') !! dependency.String dep = Some item)
  /\ (exists w',
        watch_receive
          (Value {| View_Dependency := dep;
                    View_Data := HealthServices services |}) w
        = Done (Running, w')
        /\ cache (cr w') !! dependency.String dep = Some item)
  /\ (forall function,
        healthServiceQuery (cr w) (service_name (cr w) function) = Ok dep ->
        cache (cr w) !! dependency.String dep = None ->
        dependency.Fetch dep (clientSet (cr w)) = Ok (HealthServices services) ->
        exists id w',
          ResolveAll function w = Done (Ok (addresses item, id), w')
          /\ cache (cr w') !! dependency.String dep = Some item)
  /\ (forall a : string,
        a ∈ addresses item
        <-> exists s, s ∈ services /\ (1 < length (Checks s))%nat
                      /\ a = format_address s)
  /\ (forall i0 i1 i2,
        services = [i0; i1; i2] ->
        length (Checks i0) = 0%nat ->
        length (Checks i1) = 1%nat ->
        length (Checks i2) = 2%nat ->
        addresses item = [format_address i2]).
Proof.
  intros item.
  assert (Hitem : item = snapshot_item dep services) by reflexivity.
  repeat split.
  - exists (apply_snapshot dep services w).
    rewrite updateCatalog_eq, apply_snapshot_lookup. by rewrite Hitem.
  - exists (apply_snapshot dep services w).
    rewrite watch_receive_value, apply_snapshot_lookup. by rewrite Hitem.
  - intros function Hq Hmiss Hfetch.
    eexists _, _. rewrite ResolveAll_eq.
    rewrite (resolveInternal_miss _ dep services) by done.
    split; [reflexivity |].
    unfold registered; simpl. rewrite lookup_insert_eq. by rewrite Hitem.
  - intros Hin. by apply snapshot_addresses_elem in Hin.
  - intros Hex. by apply snapshot_addresses_elem.
  - intros i0 i1 i2 -> H0 H1 H2. simpl.
    rewrite !filter_cons, filter_nil.
    rewrite decide_False by lia. rewrite decide_False by lia.
    by rewrite decide_True by lia.
Qed.

(** A miss with a fetch that succeeds: the list returned, the one fetch
    logged, the item stored and the query registered. *)
Lemma ResolveAll_miss function query services w :
  healthServiceQuery (cr w) (service_name (cr w) function) = Ok query ->
  cache (cr w) !! dependency.String query = None ->
  dependency.Fetch query (clientSet (cr w)) = Ok (HealthServices services) ->
  exists id w1,
    ResolveAll function w = Done (Ok (snapshot_addresses services, id), w1)
    /\ fetched w1 = (fetched w ++ [dependency.String query])%list
    /\ cache (cr w1)
       = <[dependency.String query := snapshot_item query services]> (cache (cr w))
    /\ subscribed query w1.
Proof.
  intros Hq Hmiss Hfetch.
  exists (identity (cr w) (service_name (cr w) function)),
         (registered query (apply_snapshot query services (fetch_logged query w))).
  split; [| split; [| split]].
  - rewrite ResolveAll_eq. by apply resolveInternal_miss.
  - reflexivity.
  - reflexivity.
  - apply registered_subscribed.
Qed.

(** C2. On a service that is not in the cache, whose query can be built
    and whose fetch succeeds, [ResolveAll] sends exactly one fetch, stores
    the filtered list under the string of the query and registers the
    query with the watcher; called again at once it returns the same list
    from the cache and sends no fetch. *)
Theorem ResolveAll_miss_then_hit function query services w :
  healthServiceQuery (cr w) (service_name (cr w) function) = Ok query ->
  cache (cr w) !! dependency.String query = None ->
  dependency.Fetch query (clientSet (cr w)) = Ok (HealthServices services) ->
  exists id w1,
    ResolveAll function w = Done (Ok (snapshot_addresses services, id), w1)
    /\ fetched w1 = (fetched w ++ [dependency.String query])%list
    /\ fetches w1 = S (fetches w)
    /\ cache (cr w1)
       = <[dependency.String query := snapshot_item query services]> (cache (cr w))
    /\ subscribed query w1
    /\ ResolveAll function w1
       = Done (Ok (snapshot_addresses services, id), w1).
Proof.
  intros Hq Hmiss Hfetch.
  set (w1 := registered query (apply_snapshot query services (fetch_logged query w))).
  exists (identity (cr w) (service_name (cr w) function)), w1.
  split; [| split; [| split; [| split; [| split]]]].
  - rewrite ResolveAll_eq. by apply resolveInternal_miss.
  - reflexivity.
  - unfold fetches; simpl. rewrite length_app; simpl. lia.
  - reflexivity.
  - apply registered_subscribed.
  - rewrite ResolveAll_eq.
    rewrite (resolveInternal_hit _ query (snapshot_item query services)).
    + reflexivity.
    + exact Hq.
    + subst w1; simpl. apply lookup_insert_eq.
Qed.

(** C3. [ResolveAll] resolves the function name without the suffix
    "." + namespace and with the prefix in front, and whenever it
    succeeds, from the cache or after a fetch, the identity it returns
    is the namespace, the datacenter "dc1" and that service name. *)
Theorem ResolveAll_identity function query w :
  healthServiceQuery (cr w) (service_name (cr w) function) = Ok query ->
  let service :=
    prefix (cr w) +:+ strings.TrimSuffix function ("." +:+ namespace (cr w)) in
  let id :=
    {| Host := ""; Namespace := namespace (cr w);
       Datacenter := "dc1"; Service := service |} in
  (forall val,
     cache (cr w) !! dependency.String query = Some val ->
     ResolveAll function w = Done (Ok (addresses val, id), w))
  /\ (forall services,
        cache (cr w) !! dependency.String query = None ->
        dependency.Fetch query (clientSet (cr w)) = Ok (HealthServices services) ->
        exists w',
          ResolveAll function w = Done (Ok (snapshot_addresses services, id), w'))
  /\ (forall base,
        function = base +:+ "." +:+ namespace (cr w) ->
        service = prefix (cr w) +:+ base)
  /\ (strings.HasSuffix function ("." +:+ namespace (cr w)) = false ->
      service = prefix (cr w) +:+ function)
  /\ (prefix (cr w) = "svc-" -> namespace (cr w) = "openfaas-fn" ->
      function = "echo.openfaas-fn" ->
      id = {| Host := ""; Namespace := "openfaas-fn";
              Datacenter := "dc1"; Service := "svc-echo" |}).
Proof.
  intros Hq service id.
  split; [| split; [| split; [| split]]].
  - intros val Hhit. rewrite ResolveAll_eq.
    by apply (resolveInternal_hit _ query).
  - intros services Hmiss Hfetch. eexists. rewrite ResolveAll_eq.
    by apply (resolveInternal_miss _ query).
  - intros base ->. subst service. by rewrite TrimSuffix_app.
  - intros Hno. subst service. by rewrite TrimSuffix_other.
  - intros Hp Hn ->. subst id service. by rewrite Hp, Hn.
Qed.

(** *** The selector *)

(** The state once the random source has been asked once. *)
Lemma rand_Intn_eq (n : nat) w :
  n ≠ 0%nat ->
  rand_Intn n w
  = Done ((rand.stream (random w) (rand.drawn (random w)) mod n)%nat,
          {| cr := cr w; retired := retired w;
             random := {| rand.stream := rand.stream (random w);
                          rand.drawn := S (rand.drawn (random w)) |};
             fetched := fetched w |}).
Proof. intros Hn. unfold rand_Intn, rand.Intn. by destruct n. Qed.

Lemma balance_single (a : string) id w :
  balance (Slice [a]) id w = Done (Ok (a, id), w).
Proof. reflexivity. Qed.

Lemma balance_many (candidates : list string) id w :
  (1 < length candidates)%nat ->
  exists a,
    candidates !! (rand.stream (random w) (rand.drawn (random w))
                   mod length candidates)%nat = Some a
    /\ balance (Slice candidates) id w
       = Done (Ok (a, id),
               {| cr := cr w; retired := retired w;
                  random := {| rand.stream := rand.stream (random w);
                               rand.drawn := S (rand.drawn (random w)) |};
                  fetched := fetched w |}).
Proof.
  intros Hlen.
  destruct (lookup_lt_is_Some_2 candidates
              (rand.stream (random w) (rand.drawn (random w))
               mod length candidates)%nat) as [a Ha].
  { apply Nat.mod_upper_bound. lia. }
  exists a. split; [done |].
  unfold balance; simpl.
  destruct (Nat.eqb_spec (length candidates) 0); [lia |].
  destruct (Nat.ltb_spec 1 (length candidates)); [| lia].
  unfold mbind, M_bind. rewrite rand_Intn_eq by lia.
  simpl. by rewrite Ha.
Qed.

(** [balance] returns on every slice, and leaves all but the random
    source as it was. *)
Lemma balance_returns (candidates : slice string) id w :
  exists res w',
    balance candidates id w = Done (res, w')
    /\ cr w' = cr w /\ retired w' = retired w /\ fetched w' = fetched w.
Proof.
  destruct candidates as [|[|a [|b rest]]].
  - by exists (Err NoCandidateError), w.
  - by exists (Err NoCandidateError), w.
  - exists (Ok (a, id)), w. by rewrite balance_single.
  - destruct (balance_many (a :: b :: rest) id w) as (c & _ & Hb);
      [simpl; lia |].
    eexists _, _. split; [exact Hb | done].
Qed.

(** C4. On a list that is not empty, whatever the random source hands
    out, [balance] returns a member of the list and touches nothing but
    the random source; on a list of one address it returns that address
    and does not ask the random source at all. *)
Theorem balance_returns_member (candidates : list string) id w :
  candidates ≠ [] ->
  (exists a w',
     balance (Slice candidates) id w = Done (Ok (a, id), w')
     /\ a ∈ candidates
     /\ cr w' = cr w /\ retired w' = retired w /\ fetched w' = fetched w)
  /\ (forall a,
        candidates = [a] ->
        balance (Slice candidates) id w = Done (Ok (a, id), w))
  /\ ((1 < length candidates)%nat ->
      exists a w',
        balance (Slice candidates) id w = Done (Ok (a, id), w')
        /\ candidates !! (rand.stream (random w) (rand.drawn (random w))
                          mod length candidates)%nat = Some a
        /\ rand.drawn (random w') = S (rand.drawn (random w))).
Proof.
  intros Hne. split; [| split].
  - destruct candidates as [|a [|b rest]]; [done | |].
    + exists a, w. rewrite balance_single. repeat split. set_solver.
    + destruct (balance_many (a :: b :: rest) id w) as (c & Hc & Hb);
        [simpl; lia |].
      eexists c, _. split; [exact Hb |]. repeat split.
      by apply list_elem_of_lookup_2 in Hc.
  - intros a ->. apply balance_single.
  - intros Hlen. destruct (balance_many candidates id w Hlen) as (c & Hc & Hb).
    eexists c, _. split; [exact Hb |]. by split.
Qed.

(** C5. On an empty or a nil list [balance] returns the error
    "no candidate available", so [Resolve] of a function that resolves
    to no address fails with it; the error is not one of the
    [dependency] package, and there is no list on which [balance]
    panics. *)
Theorem balance_no_candidate id w :
  balance nil_slice id w = Done (Err NoCandidateError, w)
  /\ balance (Slice []) id w = Done (Err NoCandidateError, w)
  /\ (forall function id' w',
        ResolveAll function w = Done (Ok ([], id'), w') ->
        Resolve function w = Done (Err NoCandidateError, w'))
  /\ (forall err, NoCandidateError ≠ DependencyError err)
  /\ (forall candidates, exists res w',
        balance candidates id w = Done (res, w')).
Proof.
  split; [reflexivity |]. split; [reflexivity |].
  split; [| split].
  - intros function id' w' Hall.
    unfold Resolve, mbind, M_bind. by rewrite Hall.
  - intros err. discriminate.
  - intros candidates.
    destruct (balance_returns candidates id w) as (res & w' & Hb & _).
    by exists res, w'.
Qed.

(** C6. When the fetch of a cache miss fails, [ResolveAll] returns the
    error of the fetch as it is, after that one fetch and no other, and
    so does [Resolve]; the error is not the one of [balance]. *)
Theorem ResolveAll_fetch_error function query err w :
  healthServiceQuery (cr w) (service_name (cr w) function) = Ok query ->
  cache (cr w) !! dependency.String query = None ->
  dependency.Fetch query (clientSet (cr w)) = Err err ->
  exists w',
    ResolveAll function w = Done (Err (DependencyError err), w')
    /\ fetched w' = (fetched w ++ [dependency.String query])%list
    /\ Resolve function w = Done (Err (DependencyError err), w')
    /\ DependencyError err ≠ NoCandidateError.
Proof.
  intros Hq Hmiss Hfetch. exists (fetch_logged query w).
  assert (Hall : ResolveAll function w
                 = Done (Err (DependencyError err), fetch_logged query w)).
  { rewrite ResolveAll_eq. by apply resolveInternal_fetch_error. }
  split; [exact Hall |]. split; [reflexivity |]. split; [| discriminate].
  unfold Resolve, mbind, M_bind. by rewrite Hall.
Qed.

(** C10. When the fetch of a cache miss fails, [ResolveAll] leaves the
    resolver as it was: the cache still has nothing under the key, the
    watcher has the subscriptions it had, and no watcher was retired. *)
Theorem fetch_error_leaves_resolver function query err w :
  healthServiceQuery (cr w) (service_name (cr w) function) = Ok query ->
  cache (cr w) !! dependency.String query = None ->
  dependency.Fetch query (clientSet (cr w)) = Err err ->
  exists w',
    ResolveAll function w = Done (Err (DependencyError err), w')
    /\ cr w' = cr w
    /\ cache (cr w') !! dependency.String query = None
    /\ depViewMap (watcher (cr w')) = depViewMap (watcher (cr w))
    /\ (subscribed query w' <-> subscribed query w)
    /\ retired w' = retired w.
Proof.
  intros Hq Hmiss Hfetch. exists (fetch_logged query w).
  split.
  { rewrite ResolveAll_eq. by apply resolveInternal_fetch_error. }
  by repeat split.
Qed.

(** *** The watch loop *)

Lemma watch_receive_malformed dep (x : any) w :
  (forall services, x ≠ HealthServices services) ->
  exists msg,
    watch_receive (Value {| View_Dependency := dep; View_Data := x |}) w
    = Panic msg.
Proof.
  intros Hx. destruct x as [services| |name].
  - by destruct (Hx services).
  - by eexists.
  - by eexists.
Qed.

(** On a channel that only delivers lists of health services, [watch]
    applies them all and returns when the channel is closed. *)
Lemma watch_returns (ch : list View) w :
  Forall (λ d, exists services, View_Data d = HealthServices services) ch ->
  exists w', watch ch w = Done (tt, w').
Proof.
  intros Hch. revert w.
  induction Hch as [|d ch [services Hd] _ IH]; intros w.
  - by exists w.
  - destruct d as [dep data]; simpl in Hd; subst data.
    cbn [watch]. unfold mbind, M_bind. rewrite watch_receive_value. apply IH.
Qed.

(** *** The watch loop on the channel of the first watcher *)

Lemma watch_cons_push (p : push) (ch : list View) w :
  watch (view_of p :: ch) w = watch ch (apply_snapshot p.1 p.2 w).
Proof.
  cbn [watch]. unfold mbind, M_bind, view_of.
  by rewrite watch_receive_value.
Qed.

(** [watch] on the pushes of a channel: each is stored, in order, and the
    loop returns at the end of the channel. *)
Lemma watch_pushes (pushes : list push) w :
  watch (view_of <$> pushes) w = Done (tt, apply_pushes pushes w).
Proof.
  revert w. induction pushes as [|p pushes IH]; intros w; [done |].
  rewrite fmap_cons, watch_cons_push. apply IH.
Qed.

Lemma apply_pushes_app (before after : list push) w :
  apply_pushes (before ++ after)%list w
  = apply_pushes after (apply_pushes before w).
Proof. unfold apply_pushes. apply fold_left_app. Qed.

(** Pushes write the cache and nothing else. *)
Lemma apply_pushes_frame (pushes : list push) w :
  same_settings w (apply_pushes pushes w)
  /\ watcher (cr (apply_pushes pushes w)) = watcher (cr w)
  /\ retired (apply_pushes pushes w) = retired w
  /\ fetched (apply_pushes pushes w) = fetched w
  /\ random (apply_pushes pushes w) = random w.
Proof.
  revert w. induction pushes as [|p pushes IH]; intros w.
  - by repeat split.
  - destruct (IH (apply_snapshot p.1 p.2 w))
      as ((Hcl & Hp & Hn & Hco) & Hw & Hret & Hlog & Hrnd).
    change (apply_pushes (p :: pushes) w)
      with (apply_pushes pushes (apply_snapshot p.1 p.2 w)).
    unfold same_settings. by rewrite Hcl, Hp, Hn, Hco, Hw, Hret, Hlog, Hrnd.
Qed.

(** A turn of the loop on a pending push, on a closed and drained channel,
    and on an open and empty one. *)
Lemma Take_push (p : push) (rest : list push) (s : System) :
  watching s = Running ->
  pending (dataCh s) = p :: rest ->
  system_step Take s
  = Done {| shared := apply_snapshot p.1 p.2 (shared s);
            callers := callers s;
            dataCh := {| pending := rest; closed := closed (dataCh s) |};
            watching := Running; resetting := resetting s |}.
Proof.
  intros Hrun Hpending. unfold system_step. rewrite Hrun, Hpending.
  unfold view_of. by rewrite watch_receive_value.
Qed.

Lemma Take_closed (s : System) :
  watching s = Running ->
  pending (dataCh s) = [] ->
  closed (dataCh s) = true ->
  system_step Take s
  = Done {| shared := shared s; callers := callers s; dataCh := dataCh s;
            watching := Returned; resetting := resetting s |}.
Proof.
  intros Hrun Hpending Hclosed. unfold system_step.
  by rewrite Hrun, Hpending, Hclosed.
Qed.

Lemma Take_waits (s : System) :
  watching s = Running ->
  pending (dataCh s) = [] ->
  closed (dataCh s) = false ->
  system_step Take s = Done s.
Proof.
  intros Hrun Hpending Hclosed. unfold system_step.
  by rewrite Hrun, Hpending, Hclosed.
Qed.

(** As many turns as there are pending pushes store them all, in order,
    and leave the loop running on a drained channel. *)
Lemma Take_all (pushes : list push) (s : System) :
  watching s = Running ->
  pending (dataCh s) = pushes ->
  system_run (replicate (length pushes) Take) s
  = Done {| shared := apply_pushes pushes (shared s);
            callers := callers s;
            dataCh := {| pending := []; closed := closed (dataCh s) |};
            watching := Running; resetting := resetting s |}.
Proof.
  revert s. induction pushes as [|p pushes IH]; intros s Hrun Hpending.
  - simpl. destruct s as [w cs [pd cl] wt rs]; simpl in *. by subst.
  - cbn [length replicate system_run].
    rewrite (Take_push p pushes s Hrun Hpending).
    by rewrite IH.
Qed.




(** A push is delivered when its query is registered with the watcher in
    use and the channel is open, and only then. *)
Lemma Deliver_subscribed (p : push) (s : System) :
  closed (dataCh s) = false ->
  dependency.String p.1 ∈ depViewMap (watcher (cr (shared s))) ->
  system_step (Deliver p) s
  = Done {| shared := shared s; callers := callers s;
            dataCh := {| pending := (pending (dataCh s) ++ [p])%list;
                         closed := false |};
            watching := watching s; resetting := resetting s |}.
Proof.
  intros Hopen Hsub. unfold system_step.
  by rewrite Hopen, bool_decide_true.
Qed.

Lemma Deliver_refused (p : push) (s : System) :
  closed (dataCh s) = true
  \/ dependency.String p.1 ∉ depViewMap (watcher (cr (shared s))) ->
  system_step (Deliver p) s = Done s.
Proof.
  intros [Hclosed|Hnot]; unfold system_step.
  - by rewrite Hclosed.
  - rewrite bool_decide_false by done. by rewrite andb_false_r.
Qed.

(** A call of [ResolveAll], operation by operation and with no other
    goroutine in between, is [ResolveAll]. *)
Lemma call_steps_ResolveAll function w :
  call_steps 4 (Called function false) w
  = match ResolveAll function w with
    | Done (res, w') => Done (Resolved res false, w')
    | Panic msg => Panic msg
    end.
Proof.
  unfold ResolveAll, resolveInternal, call_steps, call_step,
    mbind, M_bind, mret, M_ret, get_cr; simpl.
  destruct (healthServiceQuery (cr w) (service_name (cr w) function))
    as [query|err]; [| done].
  destruct (cache (cr w) !! dependency.String query) as [val|]; [done |].
  unfold Dependency_Fetch.
  destruct (dependency.Fetch query (clientSet (cr w))) as [[services| |name]|err];
    done.
Qed.

(** C9. A push with a new instance list for a query registered with the
    watcher is delivered on the open channel; once [watch] has taken what
    was pending and then that push, the item under the string of the
    query is the one made from the new list, whatever was there before,
    and the next [ResolveAll] of the service returns the filtered new list
    from the cache, with no fetch. *)
Theorem watch_push_reaches_ResolveAll function query (p : push)
    (before : list push) (s : System) :
  healthServiceQuery (cr (shared s)) (service_name (cr (shared s)) function)
  = Ok query ->
  subscribed query (shared s) ->
  dependency.String p.1 = dependency.String query ->
  closed (dataCh s) = false ->
  watching s = Running ->
  pending (dataCh s) = before ->
  exists id w1 s1 s2,
    system_step (Deliver p) s = Done s1
    /\ pending (dataCh s1) = (before ++ [p])%list
    /\ system_run (replicate (S (length before)) Take) s1 = Done s2
    /\ shared s2 = w1
    /\ watching s2 = Running
    /\ watch (view_of <$> (before ++ [p])%list) (shared s) = Done (tt, w1)
    /\ cache (cr w1) !! dependency.String query = Some (snapshot_item p.1 p.2)
    /\ ResolveAll function w1 = Done (Ok (snapshot_addresses p.2, id), w1)
    /\ call_steps 4 (Called function false) w1
       = Done (Resolved (Ok (snapshot_addresses p.2, id)) false, w1)
    /\ id = identity (cr (shared s)) (service_name (cr (shared s)) function)
    /\ fetched w1 = fetched (shared s).
Proof.
  intros Hq Hsub Hkey Hopen Hrun Hpending.
  set (w1 := apply_pushes (before ++ [p])%list (shared s)).
  destruct (apply_pushes_frame (before ++ [p])%list (shared s))
    as ((Hcl & Hp & Hn & Hco) & Hw & Hret & Hlog & Hrnd).
  assert (Hitem : cache (cr w1) !! dependency.String query
                  = Some (snapshot_item p.1 p.2)).
  { subst w1. rewrite apply_pushes_app. simpl. rewrite <- Hkey.
    apply apply_snapshot_lookup. }
  assert (Hall : ResolveAll function w1
                 = Done (Ok (snapshot_addresses p.2,
                             identity (cr (shared s))
                               (service_name (cr (shared s)) function)), w1)).
  { rewrite ResolveAll_eq.
    rewrite (resolveInternal_hit _ query (snapshot_item p.1 p.2)).
    - unfold identity, service_name. fold w1 in Hp, Hn. by rewrite Hp, Hn.
    - unfold healthServiceQuery, service_name in *. fold w1 in Hp, Hn, Hco.
      by rewrite Hp, Hn, Hco.
    - exact Hitem. }
  eexists _, w1, _, _.
  split; [apply Deliver_subscribed; [done | by rewrite Hkey] |].
  split; [cbn [dataCh pending]; by rewrite Hpending |].
  split.
  { replace (S (length before)) with (length (before ++ [p])%list)
      by (rewrite length_app; simpl; lia).
    apply Take_all; cbn [watching dataCh pending]; [done | by rewrite Hpending]. }
  cbn [shared watching].
  split; [done |]. split; [done |].
  split; [apply watch_pushes |]. split; [exact Hitem |].
  split; [exact Hall |].
  split; [by rewrite call_steps_ResolveAll, Hall |].
  split; [done | exact Hlog].
Qed.

(** *** The reset loop *)

Lemma reset_body_eq w :
  reset_body w
  = Done (tt,
          {| cr := set_watcher (NewWatcher (clientSet (cr w)) maxStale)
                     (set_cache ∅ (cr w));
             retired := Watcher_Stop (watcher (cr w)) :: retired w;
             random := random w;
             fetched := fetched w |}).
Proof. reflexivity. Qed.

(** The reset loop after any number of ticks: one watcher stopped and
    retired per tick, none of them with a subscription left; after the
    first tick the cache and the watcher in use are empty. *)
Lemma reset_returns (ticks : nat) w :
  exists w' stopped,
    reset ticks w = Done (tt, w')
    /\ retired w' = (stopped ++ retired w)%list
    /\ length stopped = ticks
    /\ Forall (λ old, depViewMap old = ∅) stopped
    /\ same_settings w w'
    /\ fetched w' = fetched w
    /\ random w' = random w
    /\ match ticks with
       | O => w' = w
       | S _ => cache (cr w') = ∅
                /\ watcher (cr w') = NewWatcher (clientSet (cr w)) maxStale
       end.
Proof.
  revert w. induction ticks as [|ticks IH]; intros w.
  - exists w, []. split; [done |]. repeat split. constructor.
  - cbn [reset]. unfold mbind, M_bind. rewrite reset_body_eq.
    match goal with |- context [reset ticks ?x] => set (w1 := x) end.
    destruct (IH w1)
      as (w' & stopped & Hrun & Hret & Hlen & Hnone & Hset & Hlog & Hrnd & Hlast).
    exists w', (stopped ++ [Watcher_Stop (watcher (cr w))])%list.
    split; [exact Hrun |].
    split; [by rewrite Hret, <- app_assoc |].
    split; [rewrite length_app; simpl; lia |].
    split; [apply Forall_app; split; [done | by repeat constructor] |].
    split; [exact Hset |]. split; [exact Hlog |]. split; [exact Hrnd |].
    destruct ticks; [by subst w' | exact Hlast].
Qed.

(** C8. After each tick of the reset loop, one per period of 30 minutes,
    the cache is empty, the watcher in use is a new one without
    subscriptions, and every watcher stopped on the way keeps no
    subscription; so whatever was resolved before, the next [ResolveAll]
    misses the cache and, when its fetch succeeds, fills it again with
    that one fetch. *)
Theorem reset_forgets_everything (ticks : nat) w :
  exists w',
    reset (S ticks) w = Done (tt, w')
    /\ cache (cr w') = ∅
    /\ (forall key, cache (cr w') !! key = None)
    /\ depViewMap (watcher (cr w')) = ∅
    /\ (exists stopped,
          retired w' = (stopped ++ retired w)%list
          /\ length stopped = S ticks
          /\ Forall (λ old, depViewMap old = ∅) stopped)
    /\ (ticks = 0%nat ->
        reset_body w = Done (tt, w')
        /\ retired w' = Watcher_Stop (watcher (cr w)) :: retired w)
    /\ (forall function query services,
          healthServiceQuery (cr w) (service_name (cr w) function) = Ok query ->
          dependency.Fetch query (clientSet (cr w)) = Ok (HealthServices services) ->
          exists id w'',
            ResolveAll function w'
            = Done (Ok (snapshot_addresses services, id), w'')
            /\ fetched w'' = (fetched w ++ [dependency.String query])%list
            /\ cache (cr w'')
               = {[dependency.String query := snapshot_item query services]}
            /\ subscribed query w'')
    /\ reset_period = 1800 * time.Second.
Proof.
  destruct (reset_returns (S ticks) w)
    as (w' & stopped & Hrun & Hret & Hlen & Hnone & Hset & Hlog & _ & Hcache & Hwatcher).
  exists w'. split; [exact Hrun |]. split; [exact Hcache |].
  split; [intros key; rewrite Hcache; apply lookup_empty |].
  split; [by rewrite Hwatcher |].
  split; [by exists stopped |].
  split; [| split; [| done]].
  - intros ->. revert Hrun. cbn [reset]. unfold mbind, M_bind.
    rewrite reset_body_eq. by intros [= <-].
  - intros function query services Hq Hfetch.
    destruct Hset as (Hclients & Hprefix & Hns & Hconnect).
    destruct (ResolveAll_miss function query services w')
      as (id & w'' & Hall & Hlog' & Hstore & Hsub).
    + unfold healthServiceQuery, service_name in *.
      by rewrite Hprefix, Hns, Hconnect.
    + rewrite Hcache. apply lookup_empty.
    + by rewrite Hclients.
    + exists id, w''. split; [exact Hall |].
      split; [by rewrite Hlog', Hlog |].
      split; [by rewrite Hstore, Hcache | exact Hsub].
Qed.

(** *** The goroutines together *)

Lemma same_settings_refl w : same_settings w w.
Proof. by repeat split. Qed.

Lemma same_settings_trans w1 w2 w3 :
  same_settings w1 w2 -> same_settings w2 w3 -> same_settings w1 w3.
Proof.
  unfold same_settings. intros (? & ? & ? & ?) (? & ? & ? & ?).
  repeat split; congruence.
Qed.

Lemma snapshot_item_ok dep services :
  item_ok (dependency.String dep) (snapshot_item dep services).
Proof. repeat split. by exists services. Qed.

Lemma consistent_apply_snapshot dep services w :
  consistent w -> consistent (apply_snapshot dep services w).
Proof.
  intros [Hcache Hold]. split; [| exact Hold].
  intros key item. unfold apply_snapshot; simpl.
  destruct (decide (dependency.String dep = key)) as [<-|Hne].
  - rewrite lookup_insert_eq. intros [= <-]. apply snapshot_item_ok.
  - rewrite lookup_insert_ne by done. apply Hcache.
Qed.

Lemma consistent_same_cache w w' :
  cache (cr w') = cache (cr w) -> retired w' = retired w ->
  consistent w -> consistent w'.
Proof. unfold consistent. by intros -> ->. Qed.

Lemma consistent_reset_body w w' :
  reset_body w = Done (tt, w') -> consistent w -> consistent w'.
Proof.
  rewrite reset_body_eq. intros [= <-] [_ Hold]. split; simpl.
  - intros key item. by rewrite lookup_empty.
  - by constructor.
Qed.

(** A resolver just made is consistent. *)
Lemma consistent_start config r src :
  NewConsulResolver config = Ok r -> consistent (start r src).
Proof.
  unfold NewConsulResolver.
  destruct (dependency.CreateConsulClient _) as [clients|err]; [| done].
  intros [= <-]. split; simpl.
  - intros key item. by rewrite lookup_empty.
  - constructor.
Qed.

(** [ResolveAll] returns, whatever the cache and the catalog hold, as long
    as the catalog answers with lists of health services. *)
Lemma ResolveAll_returns function w :
  typed_catalog (clientSet (cr w)) ->
  consistent w ->
  exists res w',
    ResolveAll function w = Done (res, w')
    /\ consistent w' /\ same_settings w w'.
Proof.
  intros Htyped Hw. rewrite ResolveAll_eq.
  set (service := service_name (cr w) function).
  destruct (healthServiceQuery (cr w) service) as [query|err] eqn:Hq.
  - destruct (cache (cr w) !! dependency.String query) as [val|] eqn:Hc.
    + eexists _, w. rewrite (resolveInternal_hit _ query val) by done.
      split; [done |]. split; [done | apply same_settings_refl].
    + destruct (dependency.Fetch query (clientSet (cr w))) as [x|err] eqn:Hf.
      * destruct (Htyped query x Hf) as [services ->].
        eexists _, _. rewrite (resolveInternal_miss _ query services) by done.
        split; [done |]. split; [| by repeat split].
        eapply (consistent_same_cache (apply_snapshot query services w));
          [done | done |].
        by apply consistent_apply_snapshot.
      * eexists _, _. rewrite (resolveInternal_fetch_error _ query err) by done.
        split; [done |]. split; [| by repeat split].
        by apply (consistent_same_cache w).
  - eexists _, w. rewrite (resolveInternal_bad_query _ err) by done.
    split; [done |]. split; [done | apply same_settings_refl].
Qed.

Lemma Resolve_returns function w :
  typed_catalog (clientSet (cr w)) ->
  consistent w ->
  exists res w',
    Resolve function w = Done (res, w')
    /\ consistent w' /\ same_settings w w'.
Proof.
  intros Htyped Hw.
  destruct (ResolveAll_returns function w Htyped Hw)
    as (res & w1 & Hall & Hw1 & Hset).
  unfold Resolve, mbind, M_bind. rewrite Hall.
  destruct res as [[candidates id]|err].
  - destruct (balance_returns (Slice candidates) id w1)
      as (res' & w2 & Hb & Hcr & Hret & _).
    exists res', w2. split; [exact Hb |]. split.
    + apply (consistent_same_cache w1); [by rewrite Hcr | done | done].
    + eapply same_settings_trans; [exact Hset |].
      unfold same_settings. by rewrite Hcr.
  - by exists (Err err), w1.
Qed.

(** One step of a caller, of the watch loop or of the reset loop returns
    and keeps the state consistent. *)
Lemma step_returns (e : event) w :
  typed_catalog (clientSet (cr w)) ->
  typed_event e ->
  consistent w ->
  exists w', step e w = Done (tt, w') /\ consistent w' /\ same_settings w w'.
Proof.
  intros Htyped He Hw. destruct e as [function|function|d|]; cbn [step].
  - destruct (ResolveAll_returns function w Htyped Hw)
      as (res & w' & Hall & Hw' & Hset).
    exists w'. unfold mbind, M_bind. by rewrite Hall.
  - destruct (Resolve_returns function w Htyped Hw)
      as (res & w' & Hres & Hw' & Hset).
    exists w'. unfold mbind, M_bind. by rewrite Hres.
  - destruct He as [services Hd].
    destruct d as [dep data]; simpl in Hd; subst data.
    exists (apply_snapshot dep services w).
    unfold mbind, M_bind. rewrite watch_receive_value.
    split; [done |]. split; [by apply consistent_apply_snapshot |].
    by repeat split.
  - eexists. split; [apply reset_body_eq |].
    split; [by eapply consistent_reset_body | by repeat split].
Qed.

(** No history of calls, well-typed pushes and ticks makes the resolver
    panic, and all of its states are consistent. *)
Lemma run_returns (history : list event) w :
  typed_catalog (clientSet (cr w)) ->
  Forall typed_event history ->
  consistent w ->
  exists w', run history w = Done (tt, w') /\ consistent w' /\ same_settings w w'.
Proof.
  intros Htyped Hhist. revert w Htyped.
  induction Hhist as [|e history He _ IH]; intros w Htyped Hw.
  - exists w. split; [done |]. split; [done | apply same_settings_refl].
  - destruct (step_returns e w Htyped He Hw) as (w1 & Hstep & Hw1 & Hset1).
    destruct (IH w1) as (w2 & Hrun & Hw2 & Hset2); [| done |].
    { destruct Hset1 as [-> _]. exact Htyped. }
    exists w2. cbn [run]. unfold mbind, M_bind. rewrite Hstep.
    split; [exact Hrun |]. split; [exact Hw2 |].
    by eapply same_settings_trans.
Qed.

End ResolverFacts.

(** ** The example catalog at work *)
Section Examples.

Import Example.

Lemma snapshot_lists_eligible_in_order_witness :
  exists id w',
    ResolveAll "echo.openfaas-fn" world0
    = Done (Ok (["10.0.0.3:8081"], id), w')
    /\ cache (cr w') !! echo_key = Some echo_item.
Proof.
  exact (proj1 (proj2 (proj2
           (snapshot_lists_eligible_in_order echo_query
              [instance0; instance1; instance2] world0)))
           "echo.openfaas-fn" eq_refl eq_refl eq_refl).
Defined.

Lemma ResolveAll_miss_then_hit_witness :
  exists id w1,
    ResolveAll "echo.openfaas-fn" world0
    = Done (Ok (["10.0.0.3:8081"], id), w1)
    /\ fetched w1 = [echo_key]
    /\ fetches w1 = 1%nat
    /\ cache (cr w1) = {[echo_key := echo_item]}
    /\ subscribed echo_query w1
    /\ ResolveAll "echo.openfaas-fn" w1
       = Done (Ok (["10.0.0.3:8081"], id), w1).
Proof.
  apply (ResolveAll_miss_then_hit "echo.openfaas-fn" echo_query
           [instance0; instance1; instance2] world0); reflexivity.
Defined.

Lemma ResolveAll_identity_witness :
  ResolveAll "echo.openfaas-fn" world1
  = Done (Ok (["10.0.0.3:8081"], echo_id), world1)
  /\ exists w',
       ResolveAll "echo.openfaas-fn" world0
       = Done (Ok (["10.0.0.3:8081"], echo_id), w').
Proof.
  split.
  - apply (proj1 (ResolveAll_identity "echo.openfaas-fn" echo_query
                    world1 eq_refl) echo_item).
    reflexivity.
  - apply (proj1 (proj2 (ResolveAll_identity "echo.openfaas-fn"
                           echo_query world0 eq_refl))
             [instance0; instance1; instance2]); reflexivity.
Defined.

Lemma balance_returns_member_witness :
  exists a w',
    balance (Slice ["10.0.0.3:8081"; "10.0.0.4:9000"]) echo_id world0
    = Done (Ok (a, echo_id), w')
    /\ a ∈ ["10.0.0.3:8081"; "10.0.0.4:9000"]
    /\ cr w' = cr world0 /\ retired w' = retired world0
    /\ fetched w' = fetched world0.
Proof.
  apply (balance_returns_member ["10.0.0.3:8081"; "10.0.0.4:9000"]
           echo_id world0).
  discriminate.
Defined.

Lemma balance_no_candidate_witness :
  Resolve "idle.openfaas-fn" world0
  = Done (Err NoCandidateError,
          registered idle_query
            (apply_snapshot idle_query []
               (fetch_logged idle_query world0))).
Proof.
  apply (proj1 (proj2 (proj2 (balance_no_candidate echo_id world0)))
           "idle.openfaas-fn"
           idle_id).
  reflexivity.
Defined.

Lemma ResolveAll_fetch_error_witness :
  exists w',
    ResolveAll "down.openfaas-fn" world0
    = Done (Err (DependencyError down_error), w')
    /\ fetched w' = [down_key]
    /\ Resolve "down.openfaas-fn" world0
       = Done (Err (DependencyError down_error), w')
    /\ DependencyError down_error ≠ NoCandidateError.
Proof.
  apply (ResolveAll_fetch_error "down.openfaas-fn" down_query
           down_error world0); reflexivity.
Defined.

Lemma fetch_error_leaves_resolver_witness :
  exists w',
    ResolveAll "down.openfaas-fn" world1
    = Done (Err (DependencyError down_error), w')
    /\ cr w' = cr world1
    /\ cache (cr w') !! down_key = None
    /\ depViewMap (watcher (cr w')) = {[echo_key]}
    /\ (subscribed down_query w'
        <-> subscribed down_query world1)
    /\ retired w' = [].
Proof.
  apply (fetch_error_leaves_resolver "down.openfaas-fn" down_query
           down_error world1); reflexivity.
Defined.


(** A value that is no list of health services, which no view of a health
    query carries, would stop the loop at the type assertion. *)
Example watch_nil_value_panics :
  watch [nil_push; echo_push] world1
  = Panic "interface conversion: interface {} is nil, not []*dependency.HealthService".
Proof. reflexivity. Qed.

Lemma reset_forgets_everything_witness :
  exists w',
    reset_body world1 = Done (tt, w')
    /\ cache (cr w') = ∅
    /\ exists id w'',
         ResolveAll "echo.openfaas-fn" w'
         = Done (Ok (["10.0.0.3:8081"], id), w'')
         /\ fetched w'' = [echo_key; echo_key].
Proof.
  destruct (reset_forgets_everything 0 world1)
    as (w' & _ & Hcache & _ & _ & _ & Hfirst & Hnext & _).
  exists w'. split; [exact (proj1 (Hfirst eq_refl)) |]. split; [exact Hcache |].
  destruct (Hnext "echo.openfaas-fn" echo_query
              [instance0; instance1; instance2] eq_refl eq_refl)
    as (id & w'' & Hall & Hlog & _).
  exists id, w''. split; [exact Hall | exact Hlog].
Defined.

Lemma watch_push_reaches_ResolveAll_witness :
  exists id w1 s1 s2,
    system_step (Deliver echo_p) system_open = Done s1
    /\ pending (dataCh s1) = [echo_old_p; echo_p]
    /\ system_run [Take; Take] s1 = Done s2
    /\ shared s2 = w1
    /\ watching s2 = Running
    /\ watch (view_of <$> [echo_old_p; echo_p]) world1 = Done (tt, w1)
    /\ cache (cr w1) !! echo_key
       = Some (snapshot_item echo_query [instance3; instance1; instance2])
    /\ ResolveAll "echo.openfaas-fn" w1
       = Done (Ok (["10.0.0.4:9000"; "10.0.0.3:8081"], id), w1)
    /\ call_steps 4 (Called "echo.openfaas-fn" false) w1
       = Done (Resolved (Ok (["10.0.0.4:9000"; "10.0.0.3:8081"], id)) false, w1)
    /\ id = echo_id
    /\ fetched w1 = [echo_key].
Proof.
  apply (watch_push_reaches_ResolveAll "echo.openfaas-fn" echo_query echo_p
           [echo_old_p] system_open); reflexivity.
Defined.

(** The formats and the normalisation on the example. *)
Example format_address_instance2 : format_address instance2 = "10.0.0.3:8081".
Proof. reflexivity. Qed.

Example service_name_echo :
  service_name resolver0 "echo.openfaas-fn" = "svc-echo"
  /\ service_name resolver0 "echo" = "svc-echo"
  /\ service_name resolver0 "echo.other" = "svc-echo.other".
Proof. by repeat split. Qed.

(** A fetch that succeeds with a value that is no list of health services
    makes [ResolveAll] panic at its type assertion: what [typed_catalog]
    rules out. *)
Example ResolveAll_odd_panics :
  ResolveAll "odd.openfaas-fn" world0
  = Panic "interface conversion: interface {} is nil, not []*dependency.HealthService".
Proof. reflexivity. Qed.

(** A history: resolve, take a push, reset, resolve again. The second
    resolution fetches anew, and only the instance with two checks is a
    candidate. *)
Example run_history :
  exists w',
    run [CallResolveAll "echo.openfaas-fn"; Push echo_push; Tick;
         CallResolve "echo.openfaas-fn"] world0
    = Done (tt, w')
    /\ fetched w' = [echo_key; echo_key]
    /\ addresses <$> cache (cr w') !! echo_key = Some ["10.0.0.3:8081"]
    /\ length (retired w') = 1%nat
    /\ rand.drawn (random w') = 0%nat.
Proof. eexists. by repeat split. Qed.

End Examples.

(** * More of the code *)

(** ** Prefixes, suffixes and the format of an address *)
Section StringCoverage.

Lemma HasSuffix_app (base suffix : string) :
  strings.HasSuffix (base +:+ suffix) suffix = true.
Proof.
  unfold strings.HasSuffix. rewrite string_length_app.
  replace (String.length base + String.length suffix - String.length suffix)%nat
    with (String.length base) by lia.
  rewrite substring_app_right, substring_whole, String.eqb_refl.
  destruct (Nat.leb_spec (String.length suffix)
              (String.length base + String.length suffix)); [done | lia].
Qed.

(** [strings.HasSuffix] holds of the strings that end with the suffix. *)
Lemma HasSuffix_iff (s suffix : string) :
  strings.HasSuffix s suffix = true <-> exists base, s = base +:+ suffix.
Proof.
  split.
  - unfold strings.HasSuffix. intros Hsuf.
    apply andb_prop in Hsuf as [Hlen Heq].
    apply Nat.leb_le in Hlen. apply String.eqb_eq in Heq.
    exists (String.substring 0 (String.length s - String.length suffix) s).
    pose proof (substring_split s (String.length s - String.length suffix)
                  (String.length suffix)) as Hsplit.
    rewrite Heq in Hsplit. symmetry. apply Hsplit. lia.
  - intros [base ->]. apply HasSuffix_app.
Qed.

(** [strings.HasPrefix] holds of the strings that start with the prefix. *)
Lemma HasPrefix_iff (s prefix : string) :
  strings.HasPrefix s prefix = true <-> exists rest, s = prefix +:+ rest.
Proof.
  split.
  - unfold strings.HasPrefix. intros Hpre.
    apply andb_prop in Hpre as [Hlen Heq].
    apply Nat.leb_le in Hlen. apply String.eqb_eq in Heq.
    exists (String.substring (String.length prefix)
              (String.length s - String.length prefix) s).
    pose proof (substring_split s (String.length prefix)
                  (String.length s - String.length prefix)) as Hsplit.
    rewrite Heq in Hsplit. symmetry. apply Hsplit. lia.
  - intros [rest ->]. unfold strings.HasPrefix.
    rewrite string_length_app, substring_app_left, String.eqb_refl.
    destruct (Nat.leb_spec (String.length prefix)
                (String.length prefix + String.length rest)); [done | lia].
Qed.

(** The decimal form of a number has no colon in it. *)
Lemma pretty_N_go_no_colon (x : N) (s : string) :
  Forall (λ c, c ≠ ":"%char) (String.list_ascii_of_string s) ->
  Forall (λ c, c ≠ ":"%char) (String.list_ascii_of_string (pretty_N_go x s)).
Proof.
  revert s. induction (N.lt_wf_0 x) as [x _ IH]; intros s Hs.
  assert (x = 0 \/ 0 < x)%N as [->|Hpos] by lia.
  - by rewrite pretty_N_go_0.
  - rewrite pretty_N_go_step by done. apply IH.
    + by apply N.div_lt.
    + simpl. constructor; [| done].
      unfold pretty_N_char. by repeat case_match.
Qed.

Lemma pretty_Z_no_colon (z : Z) :
  Forall (λ c, c ≠ ":"%char) (String.list_ascii_of_string (pretty z)).
Proof.
  assert (Hpos : forall p : positive,
             Forall (λ c, c ≠ ":"%char) (String.list_ascii_of_string (pretty p))).
  { intros p. unfold pretty, pretty_positive, pretty, pretty_N.
    rewrite decide_False by done. apply pretty_N_go_no_colon. constructor. }
  destruct z as [|p|p]; unfold pretty, pretty_Z.
  - by repeat constructor.
  - apply Hpos.
  - change (Forall (λ c, c ≠ ":"%char)
              ("-"%char :: String.list_ascii_of_string (pretty p))).
    constructor; [done | apply Hpos].
Qed.

Lemma no_colon_app (a p : string) :
  ~ Forall (λ c, c ≠ ":"%char) (String.list_ascii_of_string (a +:+ ":" +:+ p)).
Proof.
  induction a as [|c a IH]; intros Hall.
  - change (Forall (λ c, c ≠ ":"%char)
              (":"%char :: String.list_ascii_of_string p)) in Hall.
    by inversion Hall.
  - change (Forall (λ c, c ≠ ":"%char)
              (c :: String.list_ascii_of_string (a +:+ ":" +:+ p))) in Hall.
    apply IH. by inversion Hall.
Qed.

(** A string is cut at its last colon in one way only. *)
Lemma cut_at_last_colon (a1 a2 p1 p2 : string) :
  Forall (λ c, c ≠ ":"%char) (String.list_ascii_of_string p1) ->
  Forall (λ c, c ≠ ":"%char) (String.list_ascii_of_string p2) ->
  a1 +:+ ":" +:+ p1 = a2 +:+ ":" +:+ p2 ->
  a1 = a2 /\ p1 = p2.
Proof.
  intros Hp1 Hp2. revert a2.
  induction a1 as [|c a1 IH]; intros [|c' a2] Heq.
  - change (String ":" p1 = String ":" p2) in Heq. by injection Heq as ->.
  - change (String ":" p1 = String c' (a2 +:+ ":" +:+ p2)) in Heq.
    injection Heq as _ ->. by destruct (no_colon_app a2 p2).
  - change (String c (a1 +:+ ":" +:+ p1) = String ":" p2) in Heq.
    injection Heq as _ <-. by destruct (no_colon_app a1 p1).
  - change (String c (a1 +:+ ":" +:+ p1) = String c' (a2 +:+ ":" +:+ p2)) in Heq.
    injection Heq as -> Heq. destruct (IH a2 Heq) as [-> ->]. done.
Qed.

(** X1. Two instances get the same "address:port" entry only when they
    have the same address and the same port: the entries of different
    endpoints never coincide. *)
Theorem format_address_inj (s s' : HealthService) :
  format_address s = format_address s' <->
  Address s = Address s' /\ Port s = Port s'.
Proof.
  unfold format_address. split.
  - intros Heq.
    apply cut_at_last_colon in Heq as [Ha Hp]; try apply pretty_Z_no_colon.
    split; [exact Ha |]. by apply (inj pretty).
  - by intros [-> ->].
Qed.

End StringCoverage.

(** ** The writers of the cache *)
Section CacheCoverage.

Context `{deps : dependency.Interface}.

Implicit Types (w : World) (r : ConsulServiceResolver)
  (query dep : dependency.Dependency) (services : list HealthService).

(** X2. The addresses of a catalog list are those of its first part
    followed by those of the rest: what an instance contributes depends on
    no other instance. *)
Theorem collect_addresses_app services1 services2 :
  collect_addresses (services1 ++ services2)
  = (collect_addresses services1 ++ collect_addresses services2)%list.
Proof.
  rewrite !collect_addresses_snapshot. unfold snapshot_addresses.
  by rewrite filter_app, fmap_app.
Qed.

(** X3. [updateCatalog] looks at the address, the port and the number of
    health checks of an instance and at nothing else: two catalog lists
    that agree on these, instance by instance, give the same addresses,
    whatever the status of the checks. *)
Theorem collect_addresses_same_endpoint services services' :
  Forall2 same_endpoint services services' ->
  collect_addresses services = collect_addresses services'.
Proof.
  intros Hsame. rewrite !collect_addresses_snapshot. unfold snapshot_addresses.
  induction Hsame as [|s s' services services' (Ha & Hp & Hc) _ IH]; [done |].
  rewrite !filter_cons.
  assert (Hfmt : format_address s = format_address s').
  { unfold format_address. by rewrite Ha, Hp. }
  destruct (decide (eligible s)) as [Hyes|Hno],
           (decide (eligible s')) as [Hyes'|Hno'];
    unfold eligible in *; try lia.
  - by rewrite !fmap_cons, IH, Hfmt.
  - exact IH.
Qed.

(** X4. [updateCatalog] lists one address per instance with more than one
    health check: it never adds an entry of its own and never merges two
    equal ones. *)
Theorem collect_addresses_length services :
  length (collect_addresses services)
  = length (filter (λ s, 1 < length (Checks s))%nat services)
  /\ (length (collect_addresses services) <= length services)%nat
  /\ (length (collect_addresses services) = length services <->
      Forall (λ s, 1 < length (Checks s))%nat services).
Proof.
  rewrite collect_addresses_snapshot. unfold snapshot_addresses.
  rewrite length_fmap.
  change (filter eligible services)
    with (filter (λ s, 1 < length (Checks s))%nat services).
  split; [done |]. split; [apply length_filter |].
  induction services as [|s services IH]; [done |].
  rewrite filter_cons, Forall_cons.
  pose proof (length_filter (λ s, 1 < length (Checks s))%nat services) as Hle.
  destruct (decide (1 < length (Checks s))%nat) as [Hyes|Hno]; simpl.
  - rewrite <- IH. split; [intros [= ->]; done | intros [_ ->]; done].
  - split; [lia | tauto].
Qed.

(** X5. [updateCatalog] writes one entry of the cache, the one under the
    string of the query: every other entry, the watcher, the log of
    fetches and the random source stay as they were. *)
Theorem updateCatalog_frame dep services w :
  exists item w',
    updateCatalog dep services w = Done (item, w')
    /\ cache (cr w') !! dependency.String dep = Some item
    /\ (forall key, key ≠ dependency.String dep ->
                    cache (cr w') !! key = cache (cr w) !! key)
    /\ watcher (cr w') = watcher (cr w)
    /\ same_settings w w'
    /\ retired w' = retired w
    /\ fetched w' = fetched w
    /\ random w' = random w.
Proof.
  exists (snapshot_item dep services), (apply_snapshot dep services w).
  split; [apply updateCatalog_eq |].
  split; [apply apply_snapshot_lookup |].
  split; [intros key Hne; by apply apply_snapshot_lookup_ne |].
  by repeat split.
Qed.

(** X6. The last writer wins: a snapshot stored over another one of the
    same query string leaves the state that storing it alone leaves, and
    storing the same snapshot twice is storing it once. *)
Theorem updateCatalog_last_wins dep1 dep2 services1 services2 w :
  dependency.String dep1 = dependency.String dep2 ->
  exists item1 w1,
    updateCatalog dep1 services1 w = Done (item1, w1)
    /\ updateCatalog dep2 services2 w1 = updateCatalog dep2 services2 w.
Proof.
  intros Hkey.
  exists (snapshot_item dep1 services1), (apply_snapshot dep1 services1 w).
  split; [apply updateCatalog_eq |].
  rewrite !updateCatalog_eq. do 2 f_equal.
  unfold apply_snapshot, set_cr, set_cache; simpl.
  by rewrite Hkey, insert_insert_eq.
Qed.

(** *** The watch loop on a whole channel *)

Lemma watch_cons_typed dep services (ch : list View) w :
  watch ({| View_Dependency := dep; View_Data := HealthServices services |} :: ch) w
  = watch ch (apply_snapshot dep services w).
Proof. cbn [watch]. unfold mbind, M_bind. by rewrite watch_receive_value. Qed.

Lemma watch_cons_malformed (d : View) (ch : list View) w :
  ~ typed_view d -> exists msg, watch (d :: ch) w = Panic msg.
Proof.
  intros Hbad. destruct d as [dep data].
  destruct (watch_receive_malformed dep data w) as [msg Hpanic].
  { intros services ->. apply Hbad. by exists services. }
  exists msg. cbn [watch]. unfold mbind, M_bind. by rewrite Hpanic.
Qed.

(** X7. [watch] gets to the end of a channel exactly when every value the
    channel delivered carries a list of health services: one value of
    another kind and the loop never returns. *)
Theorem watch_returns_iff (ch : list View) w :
  (exists w', watch ch w = Done (tt, w')) <-> Forall typed_view ch.
Proof.
  split.
  - revert w. induction ch as [|d ch IH]; intros w [w' Hrun]; [constructor |].
    destruct d as [dep [services| |name]].
    + constructor; [by exists services |].
      rewrite watch_cons_typed in Hrun. by eapply IH; eexists.
    + destruct (watch_cons_malformed
                  {| View_Dependency := dep; View_Data := NilValue |} ch w)
        as [msg Hpanic]; [by intros [? ?] | congruence].
    + destruct (watch_cons_malformed
                  {| View_Dependency := dep; View_Data := OtherValue name |} ch w)
        as [msg Hpanic]; [by intros [? ?] | congruence].
  - apply watch_returns.
Qed.

(** X8. When [watch] has drained a channel, the cache holds for every
    query string the snapshot of the last value delivered for it, and what
    it held before for the strings no value was delivered for; the
    watcher and the log of fetches are untouched. *)
Theorem watch_last_push_wins (ch : list View) w :
  Forall typed_view ch ->
  exists w',
    watch ch w = Done (tt, w')
    /\ (forall key,
          match last_push key ch with
          | None => cache (cr w') !! key = cache (cr w) !! key
          | Some d =>
              exists services,
                View_Data d = HealthServices services
                /\ cache (cr w') !! key
                   = Some (snapshot_item (View_Dependency d) services)
          end)
    /\ watcher (cr w') = watcher (cr w)
    /\ fetched w' = fetched w.
Proof.
  intros Hch. revert w.
  induction Hch as [|d ch [services Hd] Hrest IH]; intros w.
  - exists w. by repeat split.
  - destruct d as [dep data]; simpl in Hd; subst data.
    destruct (IH (apply_snapshot dep services w))
      as (w' & Hrun & Hcache & Hwatcher & Hlog).
    exists w'. rewrite watch_cons_typed.
    split; [exact Hrun |]. split; [| by rewrite Hwatcher, Hlog].
    intros key. specialize (Hcache key). cbn [last_push].
    destruct (last_push key ch) as [d'|]; [exact Hcache |].
    cbn [View_Dependency].
    destruct (decide (dependency.String dep = key)) as [<-|Hne].
    + exists services. split; [done |].
      rewrite Hcache. apply apply_snapshot_lookup.
    + rewrite Hcache. by apply apply_snapshot_lookup_ne.
Qed.

End CacheCoverage.

(** ** The two operations of the resolver *)
Section ResolveCoverage.

Context `{deps : dependency.Interface}.

Implicit Types (w : World) (r : ConsulServiceResolver)
  (query dep : dependency.Dependency) (services : list HealthService).

Lemma resolveInternal_malformed service query (x : any) w :
  healthServiceQuery (cr w) service = Ok query ->
  cache (cr w) !! dependency.String query = None ->
  dependency.Fetch query (clientSet (cr w)) = Ok x ->
  (forall services, x ≠ HealthServices services) ->
  exists msg, resolveInternal service w = Panic msg.
Proof.
  intros Hq Hc Hf Hx.
  unfold resolveInternal, mbind, M_bind, get_cr, Dependency_Fetch; simpl.
  rewrite Hq, Hc, Hf; simpl.
  destruct x as [services| |name]; [by destruct (Hx services) | |]; by eexists.
Qed.

(** The five ways through [ResolveAll]. *)
Lemma ResolveAll_cases function w :
  let service := service_name (cr w) function in
  (exists err,
     healthServiceQuery (cr w) service = Err err
     /\ ResolveAll function w = Done (Err (DependencyError err), w))
  \/ (exists query val,
        healthServiceQuery (cr w) service = Ok query
        /\ cache (cr w) !! dependency.String query = Some val
        /\ ResolveAll function w
           = Done (Ok (addresses val, identity (cr w) service), w))
  \/ (exists query err,
        healthServiceQuery (cr w) service = Ok query
        /\ cache (cr w) !! dependency.String query = None
        /\ dependency.Fetch query (clientSet (cr w)) = Err err
        /\ ResolveAll function w
           = Done (Err (DependencyError err), fetch_logged query w))
  \/ (exists query services,
        healthServiceQuery (cr w) service = Ok query
        /\ cache (cr w) !! dependency.String query = None
        /\ dependency.Fetch query (clientSet (cr w)) = Ok (HealthServices services)
        /\ ResolveAll function w
           = Done (Ok (snapshot_addresses services, identity (cr w) service),
                   registered query
                     (apply_snapshot query services (fetch_logged query w))))
  \/ (exists query x msg,
        healthServiceQuery (cr w) service = Ok query
        /\ cache (cr w) !! dependency.String query = None
        /\ dependency.Fetch query (clientSet (cr w)) = Ok x
        /\ (forall services, x ≠ HealthServices services)
        /\ ResolveAll function w = Panic msg).
Proof.
  intros service. rewrite ResolveAll_eq. fold service.
  destruct (healthServiceQuery (cr w) service) as [query|err] eqn:Hq.
  - destruct (cache (cr w) !! dependency.String query) as [val|] eqn:Hc.
    + right; left. exists query, val.
      by rewrite (resolveInternal_hit _ query val).
    + destruct (dependency.Fetch query (clientSet (cr w))) as [x|err] eqn:Hf.
      * destruct x as [services| |name].
        -- do 3 right; left. exists query, services.
           by rewrite (resolveInternal_miss _ query services).
        -- do 4 right.
           destruct (resolveInternal_malformed service query NilValue w)
             as [msg Hp]; try done.
           by exists query, NilValue, msg.
        -- do 4 right.
           destruct (resolveInternal_malformed service query (OtherValue name) w)
             as [msg Hp]; try done.
           by exists query, (OtherValue name), msg.
      * do 2 right; left. exists query, err.
        by rewrite (resolveInternal_fetch_error _ query err).
  - left. exists err. by rewrite (resolveInternal_bad_query _ err).
Qed.

(** X9. When the query of the service cannot be built, [ResolveAll] and
    [Resolve] return the error of the constructor and nothing else
    happens: no fetch, no cache entry, no subscription, no random draw. *)
Theorem ResolveAll_bad_query function err w :
  healthServiceQuery (cr w) (service_name (cr w) function) = Err err ->
  ResolveAll function w = Done (Err (DependencyError err), w)
  /\ Resolve function w = Done (Err (DependencyError err), w).
Proof.
  intros Hq.
  assert (Hall : ResolveAll function w = Done (Err (DependencyError err), w)).
  { rewrite ResolveAll_eq. by apply resolveInternal_bad_query. }
  split; [exact Hall |]. unfold Resolve, mbind, M_bind. by rewrite Hall.
Qed.

(** X10. [ResolveAll] panics in one situation only: the service is not in
    the cache and the fetch succeeds with a value that is no list of
    health services, on which the type assertion fails. *)
Theorem ResolveAll_panics_iff function w :
  (exists msg, ResolveAll function w = Panic msg)
  <-> exists query x,
        healthServiceQuery (cr w) (service_name (cr w) function) = Ok query
        /\ cache (cr w) !! dependency.String query = None
        /\ dependency.Fetch query (clientSet (cr w)) = Ok x
        /\ forall services, x ≠ HealthServices services.
Proof.
  split.
  - intros [msg Hpanic].
    destruct (ResolveAll_cases function w)
      as [(e & _ & H)|[(q & v & _ & _ & H)|[(q & e & _ & _ & _ & H)
         |[(q & s & _ & _ & _ & H)|(q & x & m & Hq & Hc & Hf & Hx & _)]]]];
      try congruence.
    by exists q, x.
  - intros (query & x & Hq & Hc & Hf & Hx). rewrite ResolveAll_eq.
    by apply (resolveInternal_malformed _ query x).
Qed.

Lemma balance_member (a : string) (rest : list string) id w :
  exists c w',
    balance (Slice (a :: rest)) id w = Done (Ok (c, id), w')
    /\ c ∈ a :: rest
    /\ cr w' = cr w /\ retired w' = retired w /\ fetched w' = fetched w.
Proof.
  destruct rest as [|b rest].
  - exists a, w. rewrite balance_single. repeat split. set_solver.
  - destruct (balance_many (a :: b :: rest) id w) as (c & Hc & Hb);
      [simpl; lia |].
    eexists c, _. split; [exact Hb |]. repeat split.
    by apply list_elem_of_lookup_2 in Hc.
Qed.

Lemma Resolve_by_cases function w :
  match ResolveAll function w with
  | Panic msg => Resolve function w = Panic msg
  | Done (Err err, w1) => Resolve function w = Done (Err err, w1)
  | Done (Ok ([], id), w1) =>
      Resolve function w = Done (Err NoCandidateError, w1)
  | Done (Ok (a :: rest, id), w1) =>
      exists c w2,
        Resolve function w = Done (Ok (c, id), w2)
        /\ c ∈ a :: rest
        /\ cr w2 = cr w1 /\ retired w2 = retired w1 /\ fetched w2 = fetched w1
  end.
Proof.
  unfold Resolve, mbind, M_bind.
  destruct (ResolveAll function w) as [[[[[|a rest] id]|err] w1]|msg];
    try done.
  apply balance_member.
Qed.

(** [ResolveAll] neither reads nor writes the random source. *)
Lemma ResolveAll_with_random function (src : rand.Source) w :
  ResolveAll function (with_random src w)
  = match ResolveAll function w with
    | Done (res, w') => Done (res, with_random src w')
    | Panic msg => Panic msg
    end.
Proof.
  unfold ResolveAll, resolveInternal, mbind, M_bind, mret, M_ret, get_cr; simpl.
  destruct (healthServiceQuery (cr w) (service_name (cr w) function))
    as [query|err]; [| done].
  destruct (cache (cr w) !! dependency.String query) as [val|]; [done |].
  unfold Dependency_Fetch; simpl.
  destruct (dependency.Fetch query (clientSet (cr w))) as [[services| |name]|err];
    done.
Qed.

(** The selector on the address at a given position. *)
Lemma balance_picks (candidates : list string) id w (i : nat) (a : string) :
  candidates !! i = Some a ->
  exists src w',
    balance (Slice candidates) id (with_random src w) = Done (Ok (a, id), w').
Proof.
  intros Hi.
  exists {| rand.stream := λ _, i; rand.drawn := 0 |}.
  pose proof (lookup_lt_Some _ _ _ Hi) as Hlt.
  destruct candidates as [|b [|c rest]]; [done | |].
  - destruct i; [| simpl in Hlt; lia]. injection Hi as ->.
    eexists. apply balance_single.
  - destruct (balance_many (b :: c :: rest) id
                (with_random {| rand.stream := λ _, i; rand.drawn := 0 |} w))
      as (a' & Ha' & Hb); [simpl; lia |].
    simpl rand.stream in Ha'. rewrite Nat.mod_small in Ha' by done.
    assert (a' = a) as -> by congruence.
    eexists. exact Hb.
Qed.

(** X11. [Resolve] returns the addresses [ResolveAll] lists and no other:
    when [ResolveAll] resolves the function to a list, an address is what
    [Resolve] returns on some state of the random source exactly when it
    is in that list, and [Resolve] returns it with the identity
    [ResolveAll] returns. *)
Theorem Resolve_returns_what_ResolveAll_lists function
    (candidates : list string) id w w1 :
  ResolveAll function w = Done (Ok (candidates, id), w1) ->
  forall (a : string) id',
    (a ∈ candidates /\ id' = id)
    <-> exists src w2,
          Resolve function (with_random src w) = Done (Ok (a, id'), w2).
Proof.
  intros Hall a id'.
  assert (Hsrc : forall src,
             Resolve function (with_random src w)
             = balance (Slice candidates) id (with_random src w1)).
  { intros src. unfold Resolve, mbind, M_bind.
    by rewrite ResolveAll_with_random, Hall. }
  split.
  - intros [Hin ->]. apply list_elem_of_lookup in Hin as [i Hi].
    destruct (balance_picks candidates id w1 i a Hi) as (src & w2 & Hb).
    exists src, w2. by rewrite Hsrc.
  - intros (src & w2 & Hres). rewrite Hsrc in Hres.
    destruct candidates as [|b rest]; [done |].
    destruct (balance_member b rest id (with_random src w1))
      as (c & w2' & Hb & Hin & _).
    rewrite Hb in Hres. by injection Hres as <- <- _.
Qed.

(** X12. A failed fetch is not remembered: the next [ResolveAll] of the
    service asks the catalog again, so two calls in a row on a service
    whose fetch fails send two fetches and fail twice. *)
Theorem failed_fetch_is_not_cached function query err w :
  healthServiceQuery (cr w) (service_name (cr w) function) = Ok query ->
  cache (cr w) !! dependency.String query = None ->
  dependency.Fetch query (clientSet (cr w)) = Err err ->
  exists w1 w2,
    ResolveAll function w = Done (Err (DependencyError err), w1)
    /\ ResolveAll function w1 = Done (Err (DependencyError err), w2)
    /\ fetched w2
       = (fetched w ++ [dependency.String query; dependency.String query])%list
    /\ cr w2 = cr w.
Proof.
  intros Hq Hmiss Hfetch.
  exists (fetch_logged query w), (fetch_logged query (fetch_logged query w)).
  split; [| split; [| split]].
  - rewrite ResolveAll_eq. by apply resolveInternal_fetch_error.
  - rewrite ResolveAll_eq. by apply resolveInternal_fetch_error.
  - simpl. by rewrite <- app_assoc.
  - reflexivity.
Qed.

(** X13. An empty answer is remembered: when the catalog lists no
    instance with more than one health check, [Resolve] fails with
    "no candidate available" after one fetch, and fails again from the
    cache, with no further fetch, until a push or a reset. *)
Theorem empty_answer_is_cached function query services w :
  healthServiceQuery (cr w) (service_name (cr w) function) = Ok query ->
  cache (cr w) !! dependency.String query = None ->
  dependency.Fetch query (clientSet (cr w)) = Ok (HealthServices services) ->
  Forall (λ s, length (Checks s) <= 1)%nat services ->
  exists w1,
    Resolve function w = Done (Err NoCandidateError, w1)
    /\ fetched w1 = (fetched w ++ [dependency.String query])%list
    /\ addresses <$> cache (cr w1) !! dependency.String query = Some []
    /\ Resolve function w1 = Done (Err NoCandidateError, w1).
Proof.
  intros Hq Hmiss Hfetch Hnone.
  assert (Hempty : snapshot_addresses services = []).
  { unfold snapshot_addresses.
    replace (filter eligible services) with (@nil HealthService); [done |].
    symmetry. clear Hq Hmiss Hfetch.
    induction Hnone as [|s services Hs _ IH]; [done |].
    rewrite filter_cons.
    destruct (decide (eligible s)) as [Hyes|_]; [| exact IH].
    unfold eligible in Hyes. lia. }
  set (w1 := registered query
               (apply_snapshot query services (fetch_logged query w))).
  set (id := identity (cr w) (service_name (cr w) function)).
  assert (Hall : ResolveAll function w = Done (Ok ([], id), w1)).
  { rewrite ResolveAll_eq, (resolveInternal_miss _ query services) by done.
    by rewrite Hempty. }
  assert (Hhit : ResolveAll function w1 = Done (Ok ([], id), w1)).
  { rewrite ResolveAll_eq.
    rewrite (resolveInternal_hit _ query (snapshot_item query services)).
    - simpl. by rewrite Hempty.
    - exact Hq.
    - subst w1; simpl. apply lookup_insert_eq. }
  exists w1. split; [| split; [reflexivity | split]].
  - unfold Resolve, mbind, M_bind. by rewrite Hall.
  - subst w1; simpl. rewrite lookup_insert_eq. simpl. by rewrite Hempty.
  - unfold Resolve, mbind, M_bind. by rewrite Hhit.
Qed.

(** *** Names *)

Lemma HasSuffix_false (s suffix : string) :
  (forall base, s ≠ base +:+ suffix) -> strings.HasSuffix s suffix = false.
Proof.
  intros Hno. destruct (strings.HasSuffix s suffix) eqn:Hsuf; [| done].
  apply HasSuffix_iff in Hsuf as [base ->]. by destruct (Hno base).
Qed.

(** X14. A function may be named with or without the suffix
    "." + namespace: both names are resolved as the same service, so
    [ResolveAll] and [Resolve] do the same on both, and the two names share
    one cache entry and one subscription. *)
Theorem qualified_name_is_alias function w :
  (forall base, function ≠ base +:+ "." +:+ namespace (cr w)) ->
  service_name (cr w) (function +:+ "." +:+ namespace (cr w))
  = service_name (cr w) function
  /\ ResolveAll (function +:+ "." +:+ namespace (cr w)) w
     = ResolveAll function w
  /\ Resolve (function +:+ "." +:+ namespace (cr w)) w = Resolve function w.
Proof.
  intros Hplain.
  assert (Hname : service_name (cr w) (function +:+ "." +:+ namespace (cr w))
                  = service_name (cr w) function).
  { unfold service_name.
    rewrite TrimSuffix_app.
    rewrite TrimSuffix_other; [done | by apply HasSuffix_false]. }
  assert (Hall : ResolveAll (function +:+ "." +:+ namespace (cr w)) w
                 = ResolveAll function w).
  { by rewrite !ResolveAll_eq, Hname. }
  split; [exact Hname |]. split; [exact Hall |].
  unfold Resolve, mbind, M_bind. by rewrite Hall.
Qed.

(** X15. [ResolveAll] takes the function name as it is exactly when the
    name does not end with "." + namespace; a name that ends with it loses
    it once, not twice. *)
Theorem service_name_plain_iff r function :
  (service_name r function = prefix r +:+ function
   <-> forall base, function ≠ base +:+ "." +:+ namespace r)
  /\ (forall base,
        service_name r (base +:+ "." +:+ namespace r +:+ "." +:+ namespace r)
        = prefix r +:+ base +:+ "." +:+ namespace r).
Proof.
  split; [split |].
  - intros Hsame base ->. unfold service_name in Hsame.
    rewrite TrimSuffix_app in Hsame.
    apply (inj (String.app (prefix r))) in Hsame.
    apply (f_equal String.length) in Hsame.
    rewrite string_length_app in Hsame.
    change (String.length ("." +:+ namespace r))
      with (S (String.length (namespace r))) in Hsame.
    lia.
  - intros Hplain. unfold service_name.
    by rewrite TrimSuffix_other by by apply HasSuffix_false.
  - intros base. unfold service_name.
    replace (base +:+ "." +:+ namespace r +:+ "." +:+ namespace r)
      with ((base +:+ "." +:+ namespace r) +:+ "." +:+ namespace r).
    + by rewrite TrimSuffix_app.
    + clear. induction base as [|c base IH]; [done |].
      change (String c ((base +:+ "." +:+ namespace r) +:+ "." +:+ namespace r)
              = String c (base +:+ "." +:+ namespace r +:+ "." +:+ namespace r)).
      by rewrite IH.
Qed.

(** *** What a call leaves alone *)

Lemma ResolveAll_effect function w res w' :
  ResolveAll function w = Done (res, w') ->
  (forall key item,
     cache (cr w) !! key = Some item -> cache (cr w') !! key = Some item)
  /\ depViewMap (watcher (cr w)) ⊆ depViewMap (watcher (cr w'))
  /\ same_settings w w'
  /\ retired w' = retired w
  /\ random w' = random w
  /\ (exists log,
        fetched w' = (fetched w ++ log)%list
        /\ (length log <= 1)%nat
        /\ forall key, key ∈ log -> cache (cr w) !! key = None)
  /\ (consistent w -> consistent w')
  /\ (coherent w -> coherent w').
Proof.
  intros Hdone.
  destruct (ResolveAll_cases function w)
    as [(e & _ & H)|[(q & v & _ & _ & H)|[(q & e & _ & Hc & _ & H)
       |[(q & s & _ & Hc & _ & H)|(q & x & m & _ & _ & _ & _ & H)]]]];
    rewrite H in Hdone; try discriminate; injection Hdone as <- <-.
  - split; [| split; [| split; [| split; [| split; [| split; [| split]]]]]];
      try done.
    exists []. rewrite app_nil_r.
    split; [done |]. split; [simpl; lia | set_solver].
  - split; [| split; [| split; [| split; [| split; [| split; [| split]]]]]];
      try done.
    exists []. rewrite app_nil_r.
    split; [done |]. split; [simpl; lia | set_solver].
  - split; [| split; [| split; [| split; [| split; [| split; [| split]]]]]];
      try done.
    exists [dependency.String q].
    split; [done |]. split; [simpl; lia |].
    intros key Hin. by apply list_elem_of_singleton in Hin as ->.
  - split; [| split; [| split; [| split; [| split; [| split; [| split]]]]]];
      try done.
    + intros key item Hkey. simpl.
      rewrite lookup_insert_ne; [done |]. intros <-. congruence.
    + simpl. unfold Watcher_Add.
      destruct (decide (dependency.String q ∈ depViewMap (watcher (cr w))));
        simpl; set_solver.
    + exists [dependency.String q].
      split; [done |]. split; [simpl; lia |].
      intros key Hin. by apply list_elem_of_singleton in Hin as ->.
    + intros Hw.
      eapply (consistent_same_cache (apply_snapshot q s w)); [done | done |].
      by apply consistent_apply_snapshot.
    + intros [Hw Hsub]. split.
      * eapply (consistent_same_cache (apply_snapshot q s w)); [done | done |].
        by apply consistent_apply_snapshot.
      * intros key. simpl. unfold Watcher_Add.
        destruct (decide (key = dependency.String q)) as [->|Hne].
        -- intros _. rewrite lookup_insert_eq. by eexists.
        -- rewrite lookup_insert_ne by done. intros Hin. apply Hsub.
           revert Hin.
           destruct (decide (dependency.String q ∈ depViewMap (watcher (cr w))));
             simpl; [done |].
           intros [Hk|Hk]%elem_of_union; [| done].
           by apply elem_of_singleton in Hk.
Qed.

Lemma Resolve_effect function w res w' :
  Resolve function w = Done (res, w') ->
  exists res1 w1,
    ResolveAll function w = Done (res1, w1)
    /\ cr w' = cr w1 /\ retired w' = retired w1 /\ fetched w' = fetched w1.
Proof.
  intros Hdone. pose proof (Resolve_by_cases function w) as Hchar.
  destruct (ResolveAll function w) as [[[[[|a rest] id]|err] w1]|msg].
  - rewrite Hchar in Hdone. injection Hdone as <- <-. by eexists _, _.
  - destruct Hchar as (c & w2 & Hres & _ & Hcr & Hret & Hlog).
    rewrite Hres in Hdone. injection Hdone as <- <-. by eexists _, _.
  - rewrite Hchar in Hdone. injection Hdone as <- <-. by eexists _, _.
  - congruence.
Qed.

(** X16. A call never takes anything back: after [ResolveAll] or [Resolve]
    every item that was in the cache is still there unchanged, every
    subscription is still there, at most one fetch was sent, and only for
    a query string that was not in the cache. *)
Theorem calls_keep_entries function w w' :
  (exists res, ResolveAll function w = Done (res, w'))
  \/ (exists res, Resolve function w = Done (res, w')) ->
  (forall key item,
     cache (cr w) !! key = Some item -> cache (cr w') !! key = Some item)
  /\ depViewMap (watcher (cr w)) ⊆ depViewMap (watcher (cr w'))
  /\ same_settings w w'
  /\ retired w' = retired w
  /\ (exists log,
        fetched w' = (fetched w ++ log)%list
        /\ (length log <= 1)%nat
        /\ forall key, key ∈ log -> cache (cr w) !! key = None).
Proof.
  intros [[res Hall]|[res Hres]].
  - destruct (ResolveAll_effect _ _ _ _ Hall)
      as (Hc & Hs & Hset & Hret & _ & Hlog & _). done.
  - destruct (Resolve_effect _ _ _ _ Hres)
      as (res1 & w1 & Hall & Hcr & Hret' & Hlog').
    destruct (ResolveAll_effect _ _ _ _ Hall)
      as (Hc & Hs & Hset & Hret & _ & Hlog & _).
    unfold same_settings. rewrite Hcr, Hret', Hlog'. done.
Qed.

End ResolveCoverage.

(** ** Construction, and the goroutines under a catalog that changes *)
Section SystemCoverage.

Context `{deps : dependency.Interface}.

Implicit Types (w : World) (r : ConsulServiceResolver)
  (query dep : dependency.Dependency) (services : list HealthService).

(** X17. [NewConsulResolver] fails exactly when the Consul client cannot
    be made, with the error of the client; the client is asked for TLS
    exactly when the address starts with "https" (in lower case), and for
    certificate verification unless the configuration skips it; the
    resolver it returns has an empty cache and a watcher without
    subscriptions. *)
Theorem NewConsulResolver_outcome (config : types.ProviderConfig) :
  match dependency.CreateConsulClient (consul_client_input config) with
  | Err err => NewConsulResolver config = Err (DependencyError err)
  | Ok clients =>
      exists r,
        NewConsulResolver config = Ok r
        /\ clientSet r = clients
        /\ cache r = ∅
        /\ depViewMap (watcher r) = ∅
        /\ MaxStale (watcher r) = 10 * time.Second
        /\ prefix r = types.JobPrefix (types.Scheduling config)
        /\ namespace r = types.Namespace (types.Scheduling config)
        /\ connect r = types.ConnectAware (types.Consul config)
  end
  /\ (dependency.SSLEnabled (consul_client_input config) = true
      <-> exists rest, types.Addr (types.Consul config) = "https" +:+ rest)
  /\ dependency.SSLVerify (consul_client_input config)
     = negb (types.TLSSkipVerify (types.Consul config)).
Proof.
  split; [| split; [apply HasPrefix_iff | reflexivity]].
  unfold NewConsulResolver. fold (consul_client_input config).
  destruct (dependency.CreateConsulClient (consul_client_input config))
    as [clients|err]; [| done].
  eexists. by repeat split.
Qed.

(** X18. A value of the old watcher that the watch loop takes after a
    reset fills the new cache: the next [ResolveAll] of that service is
    served from it, sends no fetch and registers nothing, so the service
    stays without subscription. *)
Theorem stale_push_after_reset function query dep services w :
  healthServiceQuery (cr w) (service_name (cr w) function) = Ok query ->
  dependency.String dep = dependency.String query ->
  exists w1 w2 id,
    reset_body w = Done (tt, w1)
    /\ watch_receive
         (Value {| View_Dependency := dep;
                   View_Data := HealthServices services |}) w1
       = Done (Running, w2)
    /\ ResolveAll function w2 = Done (Ok (snapshot_addresses services, id), w2)
    /\ ~ subscribed query w2
    /\ depViewMap (watcher (cr w2)) = ∅
    /\ fetched w2 = fetched w.
Proof.
  intros Hq Hkey. eexists _, _, _.
  split; [apply reset_body_eq |].
  split; [apply watch_receive_value |].
  split; [| split; [| done]].
  - rewrite ResolveAll_eq.
    rewrite (resolveInternal_hit _ query (snapshot_item dep services)).
    + reflexivity.
    + exact Hq.
    + simpl. rewrite <- Hkey. apply lookup_insert_eq.
  - unfold subscribed; simpl. set_solver.
Qed.

(** X19. The selector can pick every candidate: for each position of a
    list there is a state of the random source on which [balance] returns
    the address at that position. *)
Theorem balance_reaches_every_member (candidates : list string) id w
    (i : nat) (a : string) :
  candidates !! i = Some a ->
  exists src w',
    balance (Slice candidates) id (with_random src w) = Done (Ok (a, id), w').
Proof.
  intros Hi.
  exists {| rand.stream := λ _, i; rand.drawn := 0 |}.
  pose proof (lookup_lt_Some _ _ _ Hi) as Hlt.
  destruct candidates as [|b [|c rest]]; [done | |].
  - destruct i; [| simpl in Hlt; lia]. injection Hi as ->.
    eexists. apply balance_single.
  - destruct (balance_many (b :: c :: rest) id
                (with_random {| rand.stream := λ _, i; rand.drawn := 0 |} w))
      as (a' & Ha' & Hb); [simpl; lia |].
    simpl rand.stream in Ha'. rewrite Nat.mod_small in Ha' by done.
    assert (a' = a) as -> by congruence.
    eexists. exact Hb.
Qed.

(** *** Stories *)

Lemma coherent_same_cache w w' :
  cache (cr w') = cache (cr w) -> watcher (cr w') = watcher (cr w) ->
  retired w' = retired w -> coherent w -> coherent w'.
Proof.
  intros Hcache Hwatcher Hret [Hw Hsub]. split.
  - by apply (consistent_same_cache w).
  - by rewrite Hcache, Hwatcher.
Qed.

Lemma coherent_same_cr w w' :
  cr w' = cr w -> retired w' = retired w -> coherent w -> coherent w'.
Proof. intros Hcr Hret. apply coherent_same_cache; by rewrite ?Hcr. Qed.

Lemma coherent_apply_snapshot dep services w :
  coherent w -> coherent (apply_snapshot dep services w).
Proof.
  intros [Hw Hsub]. split; [by apply consistent_apply_snapshot |].
  intros key Hin. simpl.
  destruct (decide (dependency.String dep = key)) as [<-|Hne].
  - rewrite lookup_insert_eq. by eexists.
  - rewrite lookup_insert_ne by done. by apply Hsub.
Qed.

Lemma ResolveAll_typed_returns function w :
  typed_catalog (clientSet (cr w)) ->
  exists res w', ResolveAll function w = Done (res, w').
Proof.
  intros Htyped.
  destruct (ResolveAll_cases function w)
    as [(e & _ & H)|[(q & v & _ & _ & H)|[(q & e & _ & _ & _ & H)
       |[(q & s & _ & _ & _ & H)|(q & x & m & _ & _ & Hf & Hx & _)]]]];
    try by eexists _, _.
  destruct (Htyped q x Hf) as [services ->]. by destruct (Hx services).
Qed.

Lemma Resolve_typed_returns function w :
  typed_catalog (clientSet (cr w)) ->
  exists res w', Resolve function w = Done (res, w').
Proof.
  intros Htyped.
  destruct (ResolveAll_typed_returns function w Htyped) as (res1 & w1 & Hall).
  pose proof (Resolve_by_cases function w) as Hchar. rewrite Hall in Hchar.
  destruct res1 as [[[|a rest] id]|err].
  - by eexists _, _.
  - destruct Hchar as (c & w2 & Hres & _). by eexists _, _.
  - by eexists _, _.
Qed.

(** What one moment of a story does. *)
Lemma moment_step_effect (m : moment) w :
  typed_catalog (clientSet (cr w)) ->
  typed_moment m ->
  exists w' log,
    moment_step m w = Done (tt, w')
    /\ typed_catalog (clientSet (cr w'))
    /\ (coherent w -> coherent w')
    /\ prefix (cr w') = prefix (cr w)
    /\ namespace (cr w') = namespace (cr w)
    /\ connect (cr w') = connect (cr w)
    /\ fetched w' = (fetched w ++ log)%list
    /\ (length log <= if is_call m then 1 else 0)%nat
    /\ (forall key, key ∈ log -> cache (cr w) !! key = None)
    /\ (is_tick m = false ->
        forall key, is_Some (cache (cr w) !! key) ->
                    is_Some (cache (cr w') !! key)).
Proof.
  intros Htyped Hm. destruct m as [[function|function|d|]|clients];
    cbn [moment_step step].
  - destruct (ResolveAll_typed_returns function w Htyped) as (res & w' & Hall).
    destruct (ResolveAll_effect _ _ _ _ Hall)
      as (Hc & _ & (Hcl & Hp & Hn & Hco) & _ & _ & (log & Hlog & Hlen & Hnew)
          & _ & Hcoh).
    exists w', log. unfold mbind, M_bind. rewrite Hall.
    split; [done |]. split; [rewrite Hcl; exact Htyped |].
    do 7 (split; [done |]).
    intros _ key [item Hitem]. exists item. by apply Hc.
  - destruct (Resolve_typed_returns function w Htyped) as (res & w' & Hres).
    destruct (Resolve_effect _ _ _ _ Hres)
      as (res1 & w1 & Hall & Hcr & Hret & Hlog').
    destruct (ResolveAll_effect _ _ _ _ Hall)
      as (Hc & _ & (Hcl & Hp & Hn & Hco) & _ & _ & (log & Hlog & Hlen & Hnew)
          & _ & Hcoh).
    exists w', log. unfold mbind, M_bind. rewrite Hres.
    split; [done |]. rewrite Hcr, Hlog'. split; [rewrite Hcl; exact Htyped |].
    split; [intros Hw; by apply (coherent_same_cr w1), Hcoh |].
    do 6 (split; [done |]).
    intros _ key [item Hitem]. exists item. by apply Hc.
  - destruct Hm as [services Hd].
    destruct d as [dep data]; simpl in Hd; subst data.
    exists (apply_snapshot dep services w), [].
    unfold mbind, M_bind. rewrite watch_receive_value, app_nil_r.
    split; [done |]. split; [exact Htyped |].
    split; [apply coherent_apply_snapshot |].
    do 4 (split; [done |]). split; [simpl; lia |].
    split; [set_solver |].
    intros _ key [item Hitem]. simpl.
    destruct (decide (dependency.String dep = key)) as [<-|Hne].
    + rewrite lookup_insert_eq. by eexists.
    + rewrite lookup_insert_ne by done. by exists item.
  - eexists _, []. rewrite reset_body_eq, app_nil_r.
    split; [done |]. split; [exact Htyped |]. split.
    { intros [Hw _]. split.
      - by eapply consistent_reset_body; [apply reset_body_eq |].
      - simpl. set_solver. }
    do 4 (split; [done |]). split; [simpl; lia |].
    split; [set_solver | done].
  - exists (catalog_changes clients w), []. rewrite app_nil_r.
    split; [done |]. split; [exact Hm |].
    split; [by apply coherent_same_cache |].
    do 4 (split; [done |]). split; [simpl; lia |].
    split; [set_solver | done].
Qed.

Lemma calls_cons (m : moment) (story : list moment) :
  calls (m :: story) = ((if is_call m then 1 else 0) + calls story)%nat.
Proof.
  unfold calls. rewrite filter_cons.
  destruct (is_call m); [by rewrite decide_True | by rewrite decide_False].
Qed.

(** What a whole story does. *)
Lemma play_effect (story : list moment) w :
  typed_catalog (clientSet (cr w)) ->
  Forall typed_moment story ->
  exists w' log,
    play story w = Done (tt, w')
    /\ (coherent w -> coherent w')
    /\ prefix (cr w') = prefix (cr w)
    /\ namespace (cr w') = namespace (cr w)
    /\ connect (cr w') = connect (cr w)
    /\ fetched w' = (fetched w ++ log)%list
    /\ (length log <= calls story)%nat
    /\ (Forall (λ m, is_tick m = false) story ->
        forall key, is_Some (cache (cr w) !! key) ->
                    is_Some (cache (cr w') !! key) /\ (key ∉ log)).
Proof.
  intros Htyped Hstory. revert w Htyped.
  induction Hstory as [|m story Hm _ IH]; intros w Htyped.
  - exists w, []. rewrite app_nil_r. split; [done |].
    do 5 (split; [done |]). split; [unfold calls; simpl; lia |].
    intros _ key Hkey. split; [done | apply not_elem_of_nil].
  - destruct (moment_step_effect m w Htyped Hm)
      as (w1 & log1 & Hstep & Htyped1 & Hcoh1 & Hp1 & Hn1 & Hc1 & Hlog1
          & Hlen1 & Hnew1 & Hkeep1).
    destruct (IH w1 Htyped1)
      as (w2 & log2 & Hplay & Hcoh2 & Hp2 & Hn2 & Hc2 & Hlog2 & Hlen2 & Hkeep2).
    exists w2, (log1 ++ log2)%list.
    cbn [play]. unfold mbind, M_bind. rewrite Hstep.
    split; [exact Hplay |]. split; [by intros Hw; apply Hcoh2, Hcoh1 |].
    split; [congruence |]. split; [congruence |]. split; [congruence |].
    split; [by rewrite Hlog2, Hlog1, app_assoc |].
    split; [rewrite length_app, calls_cons; lia |].
    intros Hfree key Hkey. apply Forall_cons in Hfree as [Hm' Hfree].
    destruct (Hkeep2 Hfree key (Hkeep1 Hm' key Hkey)) as [Hthere Hnot2].
    split; [exact Hthere |].
    intros [Hin|Hin]%elem_of_app; [| done].
    apply Hnew1 in Hin. destruct Hkey as [item Hitem]. congruence.
Qed.

(** When no two operations overlap (each call, each turn of the watch loop
    and each turn of the reset loop is done before the next begins), a
    resolver just made never panics and stays coherent. Operations that
    overlap are the matter of [system_run] below. *)
Lemma play_from_start config r src (story : list moment) :
  NewConsulResolver config = Ok r ->
  typed_catalog (clientSet r) ->
  Forall typed_moment story ->
  exists w',
    play story (start r src) = Done (tt, w')
    /\ coherent w'
    /\ prefix (cr w') = types.JobPrefix (types.Scheduling config)
    /\ namespace (cr w') = types.Namespace (types.Scheduling config)
    /\ connect (cr w') = types.ConnectAware (types.Consul config).
Proof.
  intros Hnew Htyped Hstory.
  destruct (play_effect story (start r src) Htyped Hstory)
    as (w' & log & Hplay & Hcoh & Hp & Hn & Hc & _).
  exists w'. split; [exact Hplay |]. split.
  - apply Hcoh. split; [by eapply consistent_start |].
    revert Hnew. unfold NewConsulResolver.
    destruct (dependency.CreateConsulClient _); [| done].
    intros [= <-] key. simpl. set_solver.
  - revert Hnew Hp Hn Hc. unfold NewConsulResolver.
    destruct (dependency.CreateConsulClient _); [| done].
    by intros [= <-].
Qed.


(** X22. Fetches come from calls only: over any story the log of fetches
    grows at its end, by at most one fetch per call of [ResolveAll] or
    [Resolve]; the watch loop, the reset loop and a change of the catalog
    send none. *)
Theorem fetches_come_from_calls (story : list moment) w :
  typed_catalog (clientSet (cr w)) ->
  Forall typed_moment story ->
  exists w' log,
    play story w = Done (tt, w')
    /\ fetched w' = (fetched w ++ log)%list
    /\ (length log <= calls story)%nat
    /\ (calls story = 0%nat -> fetched w' = fetched w).
Proof.
  intros Htyped Hstory.
  destruct (play_effect story w Htyped Hstory)
    as (w' & log & Hplay & _ & _ & _ & _ & Hlog & Hlen & _).
  exists w', log. split; [exact Hplay |]. split; [exact Hlog |].
  split; [exact Hlen |].
  intros Hzero. rewrite Hzero in Hlen. destruct log; [| simpl in Hlen; lia].
  by rewrite Hlog, app_nil_r.
Qed.

(** *** Goroutines that overlap *)





(** The operations of [reset], with no other goroutine in between, are
    [reset_body]. *)
Lemma ResetSteps_reset_body (s : System) :
  resetting s = ResetWaiting ->
  exists s',
    system_run [ResetStep; ResetStep; ResetStep] s = Done s'
    /\ reset_body (shared s) = Done (tt, shared s')
    /\ resetting s' = ResetWaiting
    /\ closed (dataCh s') = true.
Proof.
  intros Hwaiting. eexists. cbn [system_run]. unfold system_step at 1.
  rewrite Hwaiting. cbn [system_step resetting]. by repeat split.
Qed.

(** A call of [Resolve], operation by operation and with no other
    goroutine in between, is [Resolve]. *)
Lemma call_steps_Resolve function w :
  call_steps 5 (Called function true) w
  = match Resolve function w with
    | Done (res, w') => Done (Finished res, w')
    | Panic msg => Panic msg
    end.
Proof.
  unfold Resolve, ResolveAll, resolveInternal, call_steps, call_step,
    mbind, M_bind, mret, M_ret, get_cr; cbn -[balance].
  destruct (healthServiceQuery (cr w) (service_name (cr w) function))
    as [query|err]; [| done].
  destruct (cache (cr w) !! dependency.String query) as [val|].
  - match goal with
    | |- context [balance ?c ?i ?x] => by destruct (balance c i x) as [[? ?]|]
    end.
  - unfold Dependency_Fetch; cbn -[balance].
    destruct (dependency.Fetch query (clientSet (cr w)))
      as [[services| |name]|err]; try done.
    cbn -[balance].
    match goal with
    | |- context [balance ?c ?i ?x] => by destruct (balance c i x) as [[? ?]|]
    end.
Qed.


End SystemCoverage.

(** ** Ticks in a row, and what a successful call returns *)
Section ResetCoverage.

Context `{deps : dependency.Interface}.

Implicit Types (w : World) (r : ConsulServiceResolver)
  (query dep : dependency.Dependency) (services : list HealthService).

(** X23. Ticks that follow each other with nothing in between leave the
    resolver that the first of them leaves: only the list of retired
    watchers grows, by one per tick, and neither a fetch nor a random draw
    happens. *)
Theorem reset_ticks_collapse (ticks : nat) w :
  exists w1 wn,
    reset_body w = Done (tt, w1)
    /\ reset (S ticks) w = Done (tt, wn)
    /\ cr wn = cr w1
    /\ length (retired wn) = (S ticks + length (retired w))%nat
    /\ fetched wn = fetched w
    /\ random wn = random w.
Proof.
  destruct (reset_returns (S ticks) w)
    as (wn & stopped & Hrun & Hret & Hlen & _ & Hset & Hlog & Hrnd
        & Hcache & Hwatcher).
  eexists _, wn. split; [apply reset_body_eq |]. split; [exact Hrun |].
  split; [| split; [by rewrite Hret, length_app, Hlen | done]].
  destruct Hset as (Hcl & Hp & Hn & Hco). simpl.
  destruct (cr wn) as [cl wt c p n co]; simpl in *.
  unfold set_watcher, set_cache; simpl. by subst.
Qed.

(** X24. What [ResolveAll] returns is what the cache holds afterwards: on
    success the addresses are those of the item under the string of the
    query of the service, the identity is that of the service, and, in a
    consistent state, the addresses are the filtered addresses of some
    catalog list. *)
Theorem ResolveAll_returns_cached function (addrs : list string) id w w' :
  ResolveAll function w = Done (Ok (addrs, id), w') ->
  exists query item,
    healthServiceQuery (cr w) (service_name (cr w) function) = Ok query
    /\ cache (cr w') !! dependency.String query = Some item
    /\ addresses item = addrs
    /\ id = identity (cr w) (service_name (cr w) function)
    /\ (consistent w ->
        exists services,
          addrs
          = format_address <$> filter (λ s, 1 < length (Checks s))%nat services).
Proof.
  intros Hdone.
  destruct (ResolveAll_cases function w)
    as [(e & _ & H)|[(q & v & Hq & Hc & H)|[(q & e & _ & _ & _ & H)
       |[(q & s & Hq & _ & _ & H)|(q & x & m & _ & _ & _ & _ & H)]]]];
    rewrite H in Hdone; try discriminate.
  - injection Hdone as <- <- <-. exists q, v. do 4 (split; [done |]).
    intros [Hw _]. destruct (Hw _ _ Hc) as (_ & _ & services & Hs).
    by exists services.
  - injection Hdone as <- <- <-. exists q, (snapshot_item q s).
    split; [done |]. split; [simpl; apply lookup_insert_eq |].
    do 2 (split; [done |]). intros _. by exists s.
Qed.

End ResetCoverage.

(** ** The example catalog, on the rest of the code *)
Section CoverageExamples.

Import Example.

Lemma consul_typed_is_typed : typed_catalog (deps := catalog) consul_typed.
Proof.
  intros query x. unfold dependency.Fetch; simpl. unfold consul_typed.
  repeat destruct (String.eqb _ _); intros [= <-]; by eexists.
Qed.

Lemma story0_is_typed : Forall typed_moment story0.
Proof.
  repeat constructor.
  - apply consul_typed_is_typed.
  - by eexists.
Qed.

Lemma story1_is_typed : Forall typed_moment story1.
Proof.
  repeat constructor.
  - by eexists.
  - apply consul_typed_is_typed.
Qed.

Lemma collect_addresses_same_endpoint_witness :
  collect_addresses [instance0; instance2; instance3]
  = collect_addresses [instance0; instance2_critical; instance3].
Proof.
  apply collect_addresses_same_endpoint.
  repeat constructor.
Defined.

Lemma updateCatalog_last_wins_witness :
  exists item1 w1,
    updateCatalog echo_query [instance3] world0 = Done (item1, w1)
    /\ updateCatalog echo_query [instance2] w1
       = updateCatalog echo_query [instance2] world0.
Proof.
  apply (updateCatalog_last_wins echo_query echo_query [instance3] [instance2]
           world0).
  reflexivity.
Defined.

Lemma watch_last_push_wins_witness :
  exists w',
    watch [echo_push; idle_push; echo_push_again] world1 = Done (tt, w')
    /\ cache (cr w') !! echo_key = Some (snapshot_item echo_query [instance2])
    /\ cache (cr w') !! down_key = None
    /\ fetched w' = [echo_key].
Proof.
  destruct (watch_last_push_wins [echo_push; idle_push; echo_push_again] world1)
    as (w' & Hrun & Hcache & _ & Hlog).
  { repeat constructor; by eexists. }
  exists w'. split; [exact Hrun |].
  split; [| split; [exact (Hcache down_key) | exact Hlog]].
  destruct (Hcache echo_key) as (services & Hdata & Hitem).
  injection Hdata as <-. exact Hitem.
Defined.

Lemma ResolveAll_bad_query_witness :
  ResolveAll ".openfaas-fn" world_bare
  = Done (Err (DependencyError bad_query_error), world_bare)
  /\ Resolve ".openfaas-fn" world_bare
     = Done (Err (DependencyError bad_query_error), world_bare).
Proof.
  apply (ResolveAll_bad_query ".openfaas-fn" bad_query_error world_bare).
  reflexivity.
Defined.

Lemma failed_fetch_is_not_cached_witness :
  exists w1 w2,
    ResolveAll "down.openfaas-fn" world0
    = Done (Err (DependencyError down_error), w1)
    /\ ResolveAll "down.openfaas-fn" w1
       = Done (Err (DependencyError down_error), w2)
    /\ fetched w2 = [down_key; down_key]
    /\ cr w2 = cr world0.
Proof.
  apply (failed_fetch_is_not_cached "down.openfaas-fn" down_query down_error
           world0); reflexivity.
Defined.

Lemma empty_answer_is_cached_witness :
  exists w1,
    Resolve "weak.openfaas-fn" world0_typed = Done (Err NoCandidateError, w1)
    /\ fetched w1 = [weak_key]
    /\ addresses <$> cache (cr w1) !! weak_key = Some []
    /\ Resolve "weak.openfaas-fn" w1 = Done (Err NoCandidateError, w1).
Proof.
  apply (empty_answer_is_cached "weak.openfaas-fn" weak_query
           [instance0; instance1] world0_typed); try reflexivity.
  repeat constructor.
Defined.

Lemma qualified_name_is_alias_witness :
  service_name (cr world0) "echo.openfaas-fn" = service_name (cr world0) "echo"
  /\ ResolveAll "echo.openfaas-fn" world0 = ResolveAll "echo" world0
  /\ Resolve "echo.openfaas-fn" world0 = Resolve "echo" world0.
Proof.
  apply (qualified_name_is_alias "echo" world0).
  intros base Heq. apply (f_equal String.length) in Heq.
  rewrite string_length_app in Heq. simpl in Heq. lia.
Defined.

Lemma calls_keep_entries_witness :
  (forall key item,
     cache (cr world0) !! key = Some item ->
     cache (cr world1) !! key = Some item)
  /\ depViewMap (watcher (cr world0)) ⊆ depViewMap (watcher (cr world1))
  /\ same_settings world0 world1
  /\ retired world1 = retired world0
  /\ (exists log,
        fetched world1 = (fetched world0 ++ log)%list
        /\ (length log <= 1)%nat
        /\ forall key, key ∈ log -> cache (cr world0) !! key = None).
Proof.
  apply (calls_keep_entries "echo.openfaas-fn" world0 world1).
  left. eexists. vm_compute. reflexivity.
Defined.

Lemma stale_push_after_reset_witness :
  exists w1 w2 id,
    reset_body world1 = Done (tt, w1)
    /\ watch_receive (Value echo_push) w1 = Done (Running, w2)
    /\ ResolveAll "echo.openfaas-fn" w2
       = Done (Ok (["10.0.0.4:9000"; "10.0.0.3:8081"], id), w2)
    /\ ~ subscribed echo_query w2
    /\ depViewMap (watcher (cr w2)) = ∅
    /\ fetched w2 = [echo_key].
Proof.
  apply (stale_push_after_reset "echo.openfaas-fn" echo_query echo_query
           [instance3; instance1; instance2] world1); reflexivity.
Defined.

Lemma balance_reaches_every_member_witness :
  exists src w',
    balance (Slice ["10.0.0.3:8081"; "10.0.0.4:9000"; "10.0.0.5:80"]) echo_id
      (with_random src world0)
    = Done (Ok ("10.0.0.5:80", echo_id), w').
Proof.
  apply (balance_reaches_every_member
           ["10.0.0.3:8081"; "10.0.0.4:9000"; "10.0.0.5:80"] echo_id world0 2).
  reflexivity.
Defined.

Lemma play_from_start_witness :
  exists w',
    play story0 (start resolver_new source0) = Done (tt, w')
    /\ coherent w'
    /\ prefix (cr w') = "svc-"
    /\ namespace (cr w') = "openfaas-fn"
    /\ connect (cr w') = false.
Proof.
  apply (play_from_start config0 resolver_new source0 story0).
  - reflexivity.
  - intros query x Hfetch. discriminate Hfetch.
  - exact story0_is_typed.
Defined.


Lemma fetches_come_from_calls_witness :
  exists w' log,
    play story1 world1_typed = Done (tt, w')
    /\ fetched w' = ([echo_key] ++ log)%list
    /\ (length log <= 3)%nat
    /\ (calls story1 = 0%nat -> fetched w' = [echo_key]).
Proof.
  apply (fetches_come_from_calls story1 world1_typed).
  - exact consul_typed_is_typed.
  - exact story1_is_typed.
Defined.

Lemma ResolveAll_returns_cached_witness :
  exists query item,
    healthServiceQuery (cr world0) (service_name (cr world0) "echo.openfaas-fn")
    = Ok query
    /\ cache (cr world1) !! dependency.String query = Some item
    /\ addresses item = ["10.0.0.3:8081"]
    /\ echo_id = identity (cr world0) (service_name (cr world0) "echo.openfaas-fn")
    /\ (consistent world0 ->
        exists services,
          ["10.0.0.3:8081"]
          = format_address <$> filter (λ s, 1 < length (Checks s))%nat services).
Proof.
  apply (ResolveAll_returns_cached "echo.openfaas-fn" ["10.0.0.3:8081"]
           echo_id world0 world1).
  vm_compute. reflexivity.
Defined.

Lemma Resolve_returns_what_ResolveAll_lists_witness :
  ("10.0.0.3:8081" ∈ ["10.0.0.4:9000"; "10.0.0.3:8081"] /\ echo_id = echo_id)
  <-> exists src w2,
        Resolve "echo.openfaas-fn" (with_random src world2)
        = Done (Ok ("10.0.0.3:8081", echo_id), w2).
Proof.
  apply (Resolve_returns_what_ResolveAll_lists "echo.openfaas-fn"
           ["10.0.0.4:9000"; "10.0.0.3:8081"] echo_id world2 world2).
  vm_compute. reflexivity.
Defined.



(** Why no more is said of goroutines that overlap: a tick between the
    store and the registration of a call leaves a subscription of the
    watcher in use with no cache entry, and a registration between [Stop]
    and the new watcher lands on the stopped watcher. *)
Example subscription_without_entry :
  exists s',
    system_run tick_between_store_and_add (boot world0) = Done s'
    /\ subscribed echo_query (shared s')
    /\ cache (cr (shared s')) !! echo_key = None.
Proof.
  eexists. split; [vm_compute; reflexivity |].
  repeat split; vm_compute; reflexivity.
Qed.

Example stopped_watcher_with_subscription :
  exists s' old,
    system_run add_on_stopped_watcher (boot world0) = Done s'
    /\ retired (shared s') = [old]
    /\ depViewMap old = {[echo_key]}
    /\ depViewMap (watcher (cr (shared s'))) = ∅.
Proof.
  eexists _, _. split; [vm_compute; reflexivity |].
  repeat split; vm_compute; reflexivity.
Qed.

(** After the tick nothing is delivered on the channel [watch] ranges
    over, whatever is registered with the new watcher: the loop takes what
    was pending, returns, and is not started again. *)
Example no_push_after_reset :
  exists s',
    system_run
      [ResetStep; ResetStep; ResetStep;
       Begin "echo.openfaas-fn" false; Advance 0; Advance 0; Advance 0; Advance 0;
       Deliver echo_p; Take; Take; Take; Deliver echo_p; Take]
      system_open
    = Done s'
    /\ subscribed echo_query (shared s')
    /\ watching s' = Returned
    /\ pending (dataCh s') = []
    /\ addresses <$> cache (cr (shared s')) !! echo_key = Some ["10.0.0.3:8081"].
Proof.
  eexists. split; [vm_compute; reflexivity |].
  repeat split; vm_compute; reflexivity.
Qed.

(** The story of the witnesses, run: the two resolutions of [echo] are
    served from the cache, only [weak] is fetched. *)
Example story1_run :
  exists w',
    play story1 world1_typed = Done (tt, w')
    /\ fetched w' = [echo_key; weak_key]
    /\ addresses <$> cache (cr w') !! echo_key
       = Some ["10.0.0.4:9000"; "10.0.0.3:8081"].
Proof. eexists. by repeat split. Qed.

End CoverageExamples.

